(** * strip_comments: a shallow embedding of tools/strip_comments.py

    The script reads a source file, removes [//] line comments with a
    five-state character scanner, trims trailing whitespace on every line
    and writes the result back after making a backup copy.

    Text is modelled as Python has it after [read_text]: a sequence of
    Unicode code points.  The [while i < length] loop is modelled as an
    iteration function on the triple of mutable variables
    [(state, i, out_chars)], run with explicit fuel. *)

From Stdlib Require Import String Ascii Strings.Byte.
From Stdlib Require Import List NArith Arith Bool Lia.
Import ListNotations.

#[local] Arguments N.eqb : simpl never.

(** ** Characters and strings *)

(** A character is a code point; [str] is a decoded Python [str]. *)
Definition char := N.
Definition str := list char.

Definition ch_slash : char := 47%N.      (* slash *)
Definition ch_star : char := 42%N.       (* asterisk *)
Definition ch_dquote : char := 34%N.     (* double quote *)
Definition ch_squote : char := 39%N.     (* single quote *)
Definition ch_backslash : char := 92%N.  (* backslash *)
Definition ch_nl : char := 10%N.         (* line feed, the newline *)
Definition ch_cr : char := 13%N.         (* carriage return *)
Definition ch_ff : char := 12%N.         (* form feed *)

(** Reading a Rocq string literal as a [str], for examples. *)
Fixpoint chars (t : string) : str :=
  match t with
  | EmptyString => []
  | String a r => N_of_ascii a :: chars r
  end.

Fixpoint str_eqb (a b : str) : bool :=
  match a, b with
  | [], [] => true
  | x :: a', y :: b' => N.eqb x y && str_eqb a' b'
  | _, _ => false
  end.

(** [s.startswith(prefix, start)]: does [s[start:]] begin with [prefix]. *)
Definition startswith (s prefix : str) (start : nat) : bool :=
  str_eqb (firstn (length prefix) (skipn start s)) prefix.

(** [s[k]], used only under the loop guard [k < len(s)]. *)
Definition char_at (s : str) (k : nat) : char := nth k s 0%N.

(** ** The scanner *)

(** The values of the variable [state]:
    ['normal'], ['line_comment'], ['block_comment'], ['string'], ['char']. *)
Inductive scan_state : Type :=
| normal
| line_comment
| block_comment
| string_lit
| char_lit.

Definition scan_state_eqb (a b : scan_state) : bool :=
  match a, b with
  | normal, normal | line_comment, line_comment
  | block_comment, block_comment | string_lit, string_lit
  | char_lit, char_lit => true
  | _, _ => false
  end.

(** The mutable variables of the loop.  [out_chars] is a Python list of
    strings (each of one or two characters); it is joined after the loop. *)
Record config : Type := Config {
  state : scan_state;
  i : nat;
  out_chars : list str
}.

Definition init : config :=
  {| state := normal; i := 0; out_chars := [] |}.

(** One iteration of the loop body, for a configuration with
    [i < length]. *)
Definition step (s : str) (cf : config) : config :=
  let k := i cf in
  let c := char_at s k in
  let out := out_chars cf in
  match state cf with
  | normal =>
      if startswith s [ch_slash; ch_slash] k then
        {| state := line_comment; i := k + 2; out_chars := out |}
      else if startswith s [ch_slash; ch_star] k then
        {| state := block_comment; i := k + 2;
           out_chars := out ++ [[ch_slash; ch_star]] |}
      else if N.eqb c ch_dquote then
        {| state := string_lit; i := k + 1; out_chars := out ++ [[c]] |}
      else if N.eqb c ch_squote then
        {| state := char_lit; i := k + 1; out_chars := out ++ [[c]] |}
      else
        {| state := normal; i := k + 1; out_chars := out ++ [[c]] |}
  | line_comment =>
      if N.eqb c ch_nl then
        {| state := normal; i := k + 1; out_chars := out ++ [[c]] |}
      else
        {| state := line_comment; i := k + 1; out_chars := out |}
  | block_comment =>
      if startswith s [ch_star; ch_slash] k then
        {| state := normal; i := k + 2;
           out_chars := out ++ [[ch_star; ch_slash]] |}
      else
        {| state := block_comment; i := k + 1; out_chars := out ++ [[c]] |}
  | string_lit =>
      if N.eqb c ch_backslash && (k + 1 <? length s) then
        {| state := string_lit; i := k + 2;
           out_chars := out ++ [[c]] ++ [[char_at s (k + 1)]] |}
      else if N.eqb c ch_dquote then
        {| state := normal; i := k + 1; out_chars := out ++ [[c]] |}
      else
        {| state := string_lit; i := k + 1; out_chars := out ++ [[c]] |}
  | char_lit =>
      if N.eqb c ch_backslash && (k + 1 <? length s) then
        {| state := char_lit; i := k + 2;
           out_chars := out ++ [[c]] ++ [[char_at s (k + 1)]] |}
      else if N.eqb c ch_squote then
        {| state := normal; i := k + 1; out_chars := out ++ [[c]] |}
      else
        {| state := char_lit; i := k + 1; out_chars := out ++ [[c]] |}
  end.

(** [while i < length: body].  [None] means the fuel ran out before the
    guard became false. *)
Fixpoint loop (fuel : nat) (s : str) (cf : config) : option config :=
  if i cf <? length s then
    match fuel with
    | 0 => None
    | S fuel' => loop fuel' s (step s cf)
    end
  else Some cf.

(** [n] iterations of the body, without testing the guard. *)
Fixpoint iterate (n : nat) (s : str) (cf : config) : config :=
  match n with
  | 0 => cf
  | S n' => iterate n' s (step s cf)
  end.

(** The configurations the loop passes through on input [s]. *)
Inductive reachable (s : str) : config -> Prop :=
| reach_init : reachable s init
| reach_step cf : reachable s cf -> i cf < length s ->
                  reachable s (step s cf).

(** [''.join(out_chars)] *)
Definition joined (cf : config) : str := concat (out_chars cf).

(** The scan pass: the loop from the initial configuration, then the join. *)
Definition scan_pass (s : str) : option str :=
  option_map joined (loop (length s) s init).

(** The same scanner as a recursive function on the unread suffix
    [s[i:]], returning the characters appended from there on. *)
Fixpoint scan_from (st : scan_state) (s : str) {struct s} : str :=
  match s with
  | [] => []
  | c :: r =>
    match st with
    | normal =>
        match r with
        | d :: r' =>
            if N.eqb c ch_slash && N.eqb d ch_slash then
              scan_from line_comment r'
            else if N.eqb c ch_slash && N.eqb d ch_star then
              c :: d :: scan_from block_comment r'
            else if N.eqb c ch_dquote then c :: scan_from string_lit r
            else if N.eqb c ch_squote then c :: scan_from char_lit r
            else c :: scan_from normal r
        | [] => [c]
        end
    | line_comment =>
        if N.eqb c ch_nl then c :: scan_from normal r
        else scan_from line_comment r
    | block_comment =>
        match r with
        | d :: r' =>
            if N.eqb c ch_star && N.eqb d ch_slash then
              c :: d :: scan_from normal r'
            else c :: scan_from block_comment r
        | [] => [c]
        end
    | string_lit =>
        match r with
        | d :: r' =>
            if N.eqb c ch_backslash then c :: d :: scan_from string_lit r'
            else if N.eqb c ch_dquote then c :: scan_from normal r
            else c :: scan_from string_lit r
        | [] => [c]
        end
    | char_lit =>
        match r with
        | d :: r' =>
            if N.eqb c ch_backslash then c :: d :: scan_from char_lit r'
            else if N.eqb c ch_squote then c :: scan_from normal r
            else c :: scan_from char_lit r
        | [] => [c]
        end
    end
  end.

(** Whether scanning the suffix [s] from state [st] avoids the
    [line_comment] state altogether. *)
Fixpoint comment_free_from (st : scan_state) (s : str) {struct s} : bool :=
  match s with
  | [] => true
  | c :: r =>
    match st with
    | normal =>
        match r with
        | d :: r' =>
            if N.eqb c ch_slash && N.eqb d ch_slash then false
            else if N.eqb c ch_slash && N.eqb d ch_star then
              comment_free_from block_comment r'
            else if N.eqb c ch_dquote then comment_free_from string_lit r
            else if N.eqb c ch_squote then comment_free_from char_lit r
            else comment_free_from normal r
        | [] => true
        end
    | line_comment => false
    | block_comment =>
        match r with
        | d :: r' =>
            if N.eqb c ch_star && N.eqb d ch_slash then
              comment_free_from normal r'
            else comment_free_from block_comment r
        | [] => true
        end
    | string_lit =>
        match r with
        | d :: r' =>
            if N.eqb c ch_backslash then comment_free_from string_lit r'
            else if N.eqb c ch_dquote then comment_free_from normal r
            else comment_free_from string_lit r
        | [] => true
        end
    | char_lit =>
        match r with
        | d :: r' =>
            if N.eqb c ch_backslash then comment_free_from char_lit r'
            else if N.eqb c ch_squote then comment_free_from normal r
            else comment_free_from char_lit r
        | [] => true
        end
    end
  end.

(** The input has no line comment: the loop never assigns
    [state = 'line_comment']. *)
Definition never_line_comment (s : str) : Prop :=
  forall cf, reachable s cf -> state cf <> line_comment.

(** ** The post-pass *)

(** The line boundaries of [str.splitlines]:
    LF, VT, FF, CR, FS, GS, RS, NEL, LS and PS (CR LF counts once). *)
Definition is_linebreak (c : char) : bool :=
  existsb (N.eqb c) [10; 11; 12; 13; 28; 29; 30; 133; 8232; 8233]%N.

(** The whitespace of [str.rstrip()] without argument
    (the characters on which [str.isspace] holds). *)
Definition is_space (c : char) : bool :=
  existsb (N.eqb c)
    [9; 10; 11; 12; 13; 28; 29; 30; 31; 32; 133; 160; 5760;
     8192; 8193; 8194; 8195; 8196; 8197; 8198; 8199; 8200; 8201; 8202;
     8232; 8233; 8239; 8287; 12288]%N.

(** [s.splitlines()]: the lines of [s] without their terminators; a
    terminator at the very end does not open a further, empty line. *)
Fixpoint splitlines (s : str) : list str :=
  match s with
  | [] => []
  | c :: r =>
      if is_linebreak c then
        [] :: match r with
              | d :: r' =>
                  if N.eqb c ch_cr && N.eqb d ch_nl then splitlines r'
                  else splitlines r
              | [] => []
              end
      else
        match splitlines r with
        | [] => [[c]]
        | ln :: lns => (c :: ln) :: lns
        end
  end.

(** [ln.rstrip()]: [ln] without its longest whitespace-only suffix. *)
Fixpoint rstrip (ln : str) : str :=
  match ln with
  | [] => []
  | c :: r =>
      match rstrip r with
      | [] => if is_space c then [] else [c]
      | r' => c :: r'
      end
  end.

(** ['\n'.join(lines)] *)
Fixpoint join_nl (lines : list str) : str :=
  match lines with
  | [] => []
  | [ln] => ln
  | ln :: rest => ln ++ ch_nl :: join_nl rest
  end.

(** [new_lines = [ln.rstrip() for ln in new_s.splitlines()]] and
    [new_s = '\n'.join(new_lines) + '\n'] *)
Definition post_pass (new_s : str) : str :=
  join_nl (map rstrip (splitlines new_s)) ++ [ch_nl].

(** From the decoded text [s] to the text that is written back. *)
Definition strip_comments (s : str) : option str :=
  option_map post_pass (scan_pass s).

(** ** Vocabulary of the properties *)

Definition count_nl (s : str) : nat :=
  List.length (filter (fun c => N.eqb c ch_nl) s).

Definition ends_with (s suffix : str) : bool :=
  str_eqb (skipn (List.length s - List.length suffix) s) suffix
  && (List.length suffix <=? List.length s).

(** [t in s] for Python strings: [t] occurs in [s] as a contiguous run. *)
Fixpoint contains (s t : str) : bool :=
  startswith s t 0 ||
  match s with
  | [] => false
  | _ :: r => contains r t
  end.

(** [s[a:b]] *)
Definition slice (s : str) (a b : nat) : str := firstn (b - a) (skipn a s).

(** The characters of [s] whose flag in [mask] is set, in order. *)
Fixpoint select (mask : list bool) (s : str) : str :=
  match mask, s with
  | b :: mask', c :: s' => if b then c :: select mask' s' else select mask' s'
  | _, _ => []
  end.

(** Position [j] of [s] lies in a run that starts with two slashes at
    some [p <= j] and has no newline up to and including [j]. *)
Definition in_slash_run (s : str) (j : nat) : Prop :=
  exists p, p <= j /\ startswith s [ch_slash; ch_slash] p = true /\
            forall q, p <= q <= j -> char_at s q <> ch_nl.

(** The only line boundaries of [s] are newlines. *)
Definition only_nl_breaks (s : str) : bool :=
  forallb (fun c => negb (is_linebreak c) || N.eqb c ch_nl) s.

(** ** The driver *)

(** What a path names in the file system: a file with its bytes, or a
    directory. *)
Inductive node : Type :=
| File (content : list byte)
| Dir.

Definition filesystem := string -> option node.

Definition write_file (fs : filesystem) (p : string) (data : list byte)
  : filesystem :=
  fun q => if String.eqb q p then Some (File data) else fs q.

(** How the process ends: [sys.exit(n)] or falling off the end (status 0),
    or an exception nobody catches. *)
Inductive ending : Type :=
| Exit (status : nat)
| Uncaught (exn : string).

Record outcome : Type := Outcome {
  printed : list string;
  ended : ending;
  files : filesystem
}.

Section Driver.

(** [pathlib] and the codec are library code: [path_text a] is
    [str(Path(a))], [backup_of p] is [p.with_suffix(p.suffix + '.bak')]
    (it raises [ValueError] on a path without a name), [decode] is what
    [read_text(encoding='utf-8')] makes of the bytes (it raises
    [UnicodeDecodeError] on bytes that are not UTF-8) and [encode] what
    [write_text(..., encoding='utf-8')] writes for a text. *)
Variable path_text : string -> string.
Variable backup_of : string -> option string.
Variable decode : list byte -> option str.
Variable encode : str -> list byte.

(** The script from top to bottom, on [sys.argv] and the file system. *)
Definition main (argv : list string) (fs : filesystem) : outcome :=
  if List.length argv <? 2 then
    {| printed := ["Usage: strip_comments.py <file>"%string];
       ended := Exit 1; files := fs |}
  else
    let p := path_text (nth 1 argv EmptyString) in
    match fs p with
    | None =>
        {| printed := [("File not found: " ++ p)%string];
           ended := Exit 2; files := fs |}
    | Some nd =>
        match backup_of p with
        | None =>
            {| printed := []; ended := Uncaught "ValueError"; files := fs |}
        | Some backup =>
            let log1 := [("Creating backup: " ++ backup)%string] in
            match nd, fs backup with
            | Dir, _ =>
                {| printed := log1; ended := Uncaught "IsADirectoryError";
                   files := fs |}
            | File _, Some Dir =>
                {| printed := log1; ended := Uncaught "IsADirectoryError";
                   files := fs |}
            | File bytes, _ =>
                let fs1 := write_file fs backup bytes in
                match fs1 p with
                | Some (File bytes1) =>
                    match decode bytes1 with
                    | None =>
                        {| printed := log1;
                           ended := Uncaught "UnicodeDecodeError";
                           files := fs1 |}
                    | Some s =>
                        match strip_comments s with
                        | None =>
                            (* not taken: the scan loop always returns *)
                            {| printed := log1; ended := Uncaught "scan";
                               files := fs1 |}
                        | Some new_s =>
                            {| printed :=
                                 log1 ++
                                 [("Writing cleaned file: " ++ p)%string;
                                  "Done."%string];
                               ended := Exit 0;
                               files := write_file fs1 p (encode new_s) |}
                        end
                    end
                | _ =>
                    {| printed := log1; ended := Uncaught "OSError";
                       files := fs1 |}
                end
            end
        end
    end.

End Driver.

(** The inside of a literal closed by [q]: escape pairs (a backslash and
    any character) and characters other than [q] and the backslash. *)
Fixpoint literal_body (q : char) (b : str) : bool :=
  match b with
  | [] => true
  | c :: r =>
      if N.eqb c ch_backslash then
        match r with
        | _ :: r' => literal_body q r'
        | [] => false
        end
      else negb (N.eqb c q) && literal_body q r
  end.

(** The inside of a block comment: no asterisk is followed by a slash. *)
Fixpoint block_body (b : str) : bool :=
  match b with
  | [] => true
  | c :: r =>
      negb (N.eqb c ch_star &&
            match r with d :: _ => N.eqb d ch_slash | [] => false end)
      && block_body r
  end.

(** Where [splitlines] resumes after the line boundary [c]: behind the
    newline of a CR LF pair, else right behind [c]. *)
Definition after_break (c : char) (r : str) : str :=
  match r with
  | d :: r' => if N.eqb c ch_cr && N.eqb d ch_nl then r' else r
  | [] => []
  end.

(** Every line stripped and followed by a newline. *)
Definition render (lines : list str) : str :=
  flat_map (fun ln => rstrip ln ++ [ch_nl]) lines.

Definition no_break (ln : str) : bool :=
  forallb (fun c => negb (is_linebreak c)) ln.

(** The state in which a second scan meets what the first scan appended
    from state [st] on. *)
Definition resume (st : scan_state) : scan_state :=
  match st with
  | line_comment => normal
  | _ => st
  end.

(** The scanner read one character at a time: the lookahead of the loop
    body becomes a state of its own ([Lslash] after a slash in normal
    text, [Lblock_star] after an asterisk in a block comment, [Lstring_esc]
    and [Lchar_esc] after a backslash in a literal).  [Lcomment] stands for
    having met a line comment. *)
Inductive lex_state : Type :=
| Lnormal
| Lslash
| Lblock
| Lblock_star
| Lstring
| Lstring_esc
| Lchar
| Lchar_esc
| Lcomment.

Definition lex_step (q : lex_state) (c : char) : lex_state :=
  match q with
  | Lnormal =>
      if N.eqb c ch_slash then Lslash
      else if N.eqb c ch_dquote then Lstring
      else if N.eqb c ch_squote then Lchar
      else Lnormal
  | Lslash =>
      if N.eqb c ch_slash then Lcomment
      else if N.eqb c ch_star then Lblock
      else if N.eqb c ch_dquote then Lstring
      else if N.eqb c ch_squote then Lchar
      else Lnormal
  | Lblock => if N.eqb c ch_star then Lblock_star else Lblock
  | Lblock_star =>
      if N.eqb c ch_slash then Lnormal
      else if N.eqb c ch_star then Lblock_star
      else Lblock
  | Lstring =>
      if N.eqb c ch_backslash then Lstring_esc
      else if N.eqb c ch_dquote then Lnormal
      else Lstring
  | Lstring_esc => Lstring
  | Lchar =>
      if N.eqb c ch_backslash then Lchar_esc
      else if N.eqb c ch_squote then Lnormal
      else Lchar
  | Lchar_esc => Lchar
  | Lcomment => Lcomment
  end.

Fixpoint lex_run (q : lex_state) (s : str) : lex_state :=
  match s with
  | [] => q
  | c :: r => lex_run (lex_step q c) r
  end.

Definition lex_of (st : scan_state) : lex_state :=
  match st with
  | normal => Lnormal
  | line_comment => Lcomment
  | block_comment => Lblock
  | string_lit => Lstring
  | char_lit => Lchar
  end.

Definition lex_ok (q : lex_state) : bool :=
  match q with
  | Lcomment => false
  | _ => true
  end.

(** What any whitespace character does to the state. *)
Definition blank (q : lex_state) : lex_state :=
  match q with
  | Lnormal | Lslash => Lnormal
  | Lblock | Lblock_star => Lblock
  | Lstring | Lstring_esc => Lstring
  | Lchar | Lchar_esc => Lchar
  | Lcomment => Lcomment
  end.

(** Position [j] is consumed by an iteration that leaves the scanner in
    the [line_comment] state: the iteration that opens a line comment or
    one inside it, before the newline. *)
Definition in_line_comment (s : str) (j : nat) : Prop :=
  exists cf,
    reachable s cf /\ i cf < length s /\
    i cf <= j < i (step s cf) /\
    state (step s cf) = line_comment.

(** The loop invariant behind the accounting of characters: what has
    been appended is a selection of the characters read so far, the
    characters left out are those consumed in a line comment, each of
    them lies in a run opened by two slashes, and in the [line_comment]
    state such a run reaches up to the index. *)
Definition scan_inv (s : str) (cf : config) : Prop :=
  exists mask,
    length mask = i cf /\
    joined cf = select mask s /\
    (forall j, j < i cf ->
               (nth j mask true = false <-> in_line_comment s j)) /\
    (forall j, j < i cf -> nth j mask true = false -> in_slash_run s j) /\
    (state cf = line_comment ->
     exists p, p + 2 <= i cf /\
               startswith s [ch_slash; ch_slash] p = true /\
               forall q, p <= q < i cf -> char_at s q <> ch_nl).

(** The rest of a text inside a literal opened by [q] that is never
    closed: no [q] outside an escape pair; a backslash may be the last
    character. *)
Fixpoint no_closing (q : char) (b : str) : bool :=
  match b with
  | [] => true
  | c :: r =>
      if N.eqb c ch_backslash then
        match r with
        | _ :: r' => no_closing q r'
        | [] => true
        end
      else negb (N.eqb c q) && no_closing q r
  end.

(** The characters of a text that are not whitespace, in order. *)
Definition non_space (s : str) : str :=
  filter (fun c => negb (is_space c)) s.

(** A small world to run the driver in: paths are taken as they are,
    the backup path appends the suffix to the name, the codec maps a
    byte to the code point of the same number (UTF-8 on ASCII text), and
    the file system holds one file. *)
Definition demo_backup_of (p : string) : option string :=
  Some (p ++ ".bak")%string.

Definition demo_decode (bytes : list byte) : option str :=
  Some (map Byte.to_N bytes).

Definition demo_encode (s : str) : list byte :=
  map (fun c => match Byte.of_N c with Some b => b | None => x00 end) s.

Definition demo_fs : filesystem :=
  fun q => if String.eqb q "main.rs"
           then Some (File (list_byte_of_string "x = 1; // one"))
           else None.

Definition demo_argv : list string :=
  ["strip_comments.py"%string; "main.rs"%string].

(** Code that the scanner copies in the normal state without looking
    further: no slash, no quote of either kind, and no line boundary. *)
Definition plain_code (code : str) : bool :=
  forallb (fun c => negb (N.eqb c ch_slash) && negb (N.eqb c ch_dquote) &&
                    negb (N.eqb c ch_squote) && negb (is_linebreak c)) code.

(** A character of code that the scanner copies one at a time: not a
    quote of either kind, and not a slash that opens a comment with the
    character behind it. *)
Definition code_char (c : char) (rest : str) : bool :=
  negb (N.eqb c ch_dquote) && negb (N.eqb c ch_squote) &&
  negb (N.eqb c ch_slash &&
        match rest with
        | d :: _ => N.eqb d ch_slash || N.eqb d ch_star
        | [] => false
        end).

(** The lexical structure of a text, read from its start in code, and
    the text that is left when its line comments are deleted.  The text
    is a sequence of items: a line comment (two slashes and everything
    up to the next newline, or up to the end of the text), which is
    deleted while the newline stays; a block comment, a string literal
    or a character literal, closed or running to the end of the text,
    which is kept whole; and any other character of code, which is
    kept.  Nothing here refers to the loop or its states. *)
Inductive without_line_comments : str -> str -> Prop :=
| wlc_end :
    without_line_comments [] []
| wlc_line_comment (body rest out : str) :
    ~ In ch_nl body ->
    without_line_comments rest out ->
    without_line_comments
      (ch_slash :: ch_slash :: body ++ ch_nl :: rest) (ch_nl :: out)
| wlc_line_comment_at_end (body : str) :
    ~ In ch_nl body ->
    without_line_comments (ch_slash :: ch_slash :: body) []
| wlc_block_comment (body rest out : str) :
    block_body body = true ->
    without_line_comments rest out ->
    without_line_comments
      (ch_slash :: ch_star :: body ++ ch_star :: ch_slash :: rest)
      (ch_slash :: ch_star :: body ++ ch_star :: ch_slash :: out)
| wlc_block_comment_unclosed (u : str) :
    block_body u = true ->
    without_line_comments (ch_slash :: ch_star :: u)
                          (ch_slash :: ch_star :: u)
| wlc_literal (q : char) (body rest out : str) :
    q = ch_dquote \/ q = ch_squote ->
    literal_body q body = true ->
    without_line_comments rest out ->
    without_line_comments (q :: body ++ q :: rest) (q :: body ++ q :: out)
| wlc_literal_unclosed (q : char) (u : str) :
    q = ch_dquote \/ q = ch_squote ->
    no_closing q u = true ->
    without_line_comments (q :: u) (q :: u)
| wlc_code (c : char) (rest out : str) :
    code_char c rest = true ->
    without_line_comments rest out ->
    without_line_comments (c :: rest) (c :: out).

(** * Properties *)

(** ** The library functions and the scenarios of the specification *)

Example splitlines_mixed :
  splitlines (chars "ab c" ++ [ch_nl; ch_nl] ++ chars "de fg" ++ [ch_cr] ++
              chars "kl" ++ [ch_cr; ch_nl]) =
  [chars "ab c"; []; chars "de fg"; chars "kl"].
Proof. reflexivity. Qed.

Example splitlines_empty : splitlines [] = [].
Proof. reflexivity. Qed.

Example splitlines_one_line :
  splitlines (chars "One line" ++ [ch_nl]) = [chars "One line"].
Proof. reflexivity. Qed.

Example rstrip_spacious :
  rstrip (chars "   spacious   ") = chars "   spacious".
Proof. vm_compute. reflexivity. Qed.

Example scenario_line_comment :
  strip_comments (chars "let x = 5; // set x" ++ [ch_nl]) =
  Some (chars "let x = 5;" ++ [ch_nl]).
Proof. vm_compute. reflexivity. Qed.

Example scenario_url_in_string :
  strip_comments
    (chars "let s = " ++ [ch_dquote] ++ chars "http://example.com" ++
     [ch_dquote] ++ chars "; // a url" ++ [ch_nl]) =
  Some (chars "let s = " ++ [ch_dquote] ++ chars "http://example.com" ++
        [ch_dquote] ++ chars ";" ++ [ch_nl]).
Proof. vm_compute. reflexivity. Qed.

Example scenario_block_comment :
  strip_comments
    (chars "/* a // b */" ++ [ch_nl] ++ chars "let y = 1;" ++ [ch_nl]) =
  Some (chars "/* a // b */" ++ [ch_nl] ++ chars "let y = 1;" ++ [ch_nl]).
Proof. vm_compute. reflexivity. Qed.

Example scenario_char_literal :
  strip_comments (chars "let c = '/';" ++ [ch_nl]) =
  Some (chars "let c = '/';" ++ [ch_nl]).
Proof. vm_compute. reflexivity. Qed.

Example scenario_escaped_quote :
  let text := chars "let s = " ++ [ch_dquote] ++ chars "quote: \" ++
              [ch_dquote] ++ chars " // not a comment" ++ [ch_dquote] ++
              chars ";" ++ [ch_nl] in
  strip_comments text = Some text.
Proof. vm_compute. reflexivity. Qed.

Example scenario_no_trailing_newline :
  strip_comments (chars "let x = 1; // c") =
  Some (chars "let x = 1;" ++ [ch_nl]).
Proof. vm_compute. reflexivity. Qed.

(** ** Strings and positions *)

Lemma str_eqb_eq (a b : str) : str_eqb a b = true <-> a = b.
Proof.
  revert b; induction a as [|x a IH]; intros [|y b]; simpl;
    try (split; [discriminate | discriminate]); try tauto.
  rewrite andb_true_iff, N.eqb_eq, IH.
  split; [intros [-> ->]; reflexivity | intros H; inversion H; auto].
Qed.

Lemma skipn_cons_inv {s : str} {k : nat} {c : char} {r : str} :
  skipn k s = c :: r ->
  char_at s k = c /\ k < length s /\ skipn (k + 1) s = r.
Proof.
  revert s; induction k as [|k IH]; intros [|x s] H; simpl in *;
    try discriminate.
  - inversion H; subst. repeat split; lia.
  - destruct (IH _ H) as (A & B & C). repeat split; auto; lia.
Qed.

Lemma skipn_nonempty (s : str) (k : nat) :
  k < length s -> exists c r, skipn k s = c :: r.
Proof.
  revert s; induction k as [|k IH]; intros [|x s] H; simpl in *; try lia.
  - eauto.
  - apply IH; lia.
Qed.

Lemma startswith_two {s : str} {k : nat} (a b : char) {c : char} {r : str} :
  skipn k s = c :: r ->
  startswith s [a; b] k =
  match r with
  | d :: _ => N.eqb c a && N.eqb d b
  | [] => false
  end.
Proof.
  intros H. unfold startswith. rewrite H. simpl.
  destruct r as [|d r]; simpl.
  - rewrite andb_false_r. reflexivity.
  - rewrite andb_true_r. reflexivity.
Qed.

Lemma next_exists {s : str} {k : nat} {c : char} {r : str} :
  skipn k s = c :: r ->
  (k + 1 <? length s) = match r with [] => false | _ :: _ => true end.
Proof.
  intros H. destruct (skipn_cons_inv H) as (_ & Hk & Hr).
  destruct r as [|d r].
  - apply Nat.ltb_ge. destruct (Nat.le_gt_cases (length s) (k + 1)); auto.
    destruct (skipn_nonempty s (k + 1)) as (x & y & E); auto. congruence.
  - apply Nat.ltb_lt. destruct (skipn_cons_inv Hr) as (_ & ? & _). lia.
Qed.

(** ** Case analysis on the tests of the loop body *)

Ltac split_ifs :=
  repeat match goal with
         | |- context [if ?b then _ else _] =>
             match type of b with
             | bool => destruct b eqn:?; cbn [state i out_chars]
             end
         end.

(** Tests between two known characters are evaluated. *)
Ltac eval_tests :=
  repeat match goal with
         | |- context [N.eqb ?a ?b] =>
             let v := eval vm_compute in (N.eqb a b) in
             match v with
             | true => change (N.eqb a b) with true
             | false => change (N.eqb a b) with false
             end
         end.

Ltac bool_facts :=
  repeat match goal with
         | H : andb _ _ = true |- _ => apply andb_true_iff in H; destruct H
         | H : N.eqb _ _ = true |- _ => apply N.eqb_eq in H
         end.

(** ** One iteration against the recursive scanner *)

(** What has been appended so far, followed by what the recursive scanner
    appends on the unread suffix, does not change across an iteration;
    the index advances by one or two and stays within the input. *)
Lemma step_scan_from (s : str) (cf : config) :
  i cf < length s ->
  let cf' := step s cf in
  joined cf' ++ scan_from (state cf') (skipn (i cf') s) =
  joined cf ++ scan_from (state cf) (skipn (i cf) s) /\
  (i cf' = i cf + 1 \/ i cf' = i cf + 2) /\
  i cf' <= length s.
Proof.
  intros Hlt. destruct cf as [st k out]; simpl in *.
  destruct (skipn_nonempty s k Hlt) as (c & r & E).
  destruct (skipn_cons_inv E) as (Hc & _ & Hr).
  assert (Hlen : forall d r', r = d :: r' ->
            char_at s (k + 1) = d /\ skipn (k + 2) s = r' /\ k + 2 <= length s).
  { intros d r' ->. destruct (skipn_cons_inv Hr) as (A & B & C).
    replace (k + 2) with (k + 1 + 1) by lia. repeat split; auto; lia. }
  unfold step, joined; cbn [state i out_chars]. rewrite Hc. clear Hc.
  rewrite !(startswith_two _ _ E), (next_exists E), E.
  destruct st; simpl;
    (destruct r as [|d r'];
     [ | destruct (Hlen d r' eq_refl) as (Hd & Hr' & Hle);
         rewrite ?Hd; clear Hd ]);
    clear Hlen; cbv beta match; rewrite ?andb_true_r, ?andb_false_r;
    split_ifs; cbn [state i out_chars]; bool_facts; subst;
    rewrite ?Hr, ?concat_app; cbn [concat app];
    rewrite <- ?app_assoc; cbn [app]; repeat split; auto; lia.
Qed.

(** ** The loop terminates and computes [scan_from] *)

Lemma scan_from_nil (st : scan_state) : scan_from st [] = [].
Proof. destruct st; reflexivity. Qed.

(** One unfolding of the recursive scanner, and of [comment_free_from],
    on a non-empty suffix. *)
Lemma scan_from_cons (st : scan_state) (c : char) (r : str) :
  scan_from st (c :: r) =
  ltac:(let body := eval cbn [scan_from] in (scan_from st (c :: r)) in
        exact body).
Proof. reflexivity. Qed.

Lemma comment_free_from_cons (st : scan_state) (c : char) (r : str) :
  comment_free_from st (c :: r) =
  ltac:(let body := eval cbn [comment_free_from] in
                    (comment_free_from st (c :: r)) in
        exact body).
Proof. reflexivity. Qed.

Ltac unfold_scan := rewrite scan_from_cons; cbv beta match.

Lemma loop_scan_from (fuel : nat) (s : str) :
  forall cf,
    i cf <= length s ->
    length s - i cf <= fuel ->
    exists cf',
      loop fuel s cf = Some cf' /\
      i cf' = length s /\
      joined cf' = joined cf ++ scan_from (state cf) (skipn (i cf) s).
Proof.
  induction fuel as [|fuel IH]; intros cf Hle Hfuel.
  - exists cf. assert (E : i cf = length s) by lia.
    simpl. rewrite E, Nat.ltb_irrefl, skipn_all, scan_from_nil, app_nil_r.
    auto.
  - simpl. destruct (i cf <? length s) eqn:G.
    + apply Nat.ltb_lt in G.
      destruct (step_scan_from s cf G) as (Hout & Hadv & Hin).
      destruct (IH (step s cf)) as (cf' & A & B & C); [lia | lia |].
      exists cf'. repeat split; auto. rewrite C. exact Hout.
    + apply Nat.ltb_ge in G. assert (E : i cf = length s) by lia.
      exists cf. rewrite E, skipn_all, scan_from_nil, app_nil_r. auto.
Qed.

Lemma scan_pass_total (s : str) : scan_pass s = Some (scan_from normal s).
Proof.
  unfold scan_pass.
  destruct (loop_scan_from (length s) s init) as (cf & A & _ & C);
    simpl; try lia.
  rewrite A; simpl. rewrite C. reflexivity.
Qed.

Lemma strip_comments_total (s : str) :
  strip_comments s = Some (post_pass (scan_from normal s)).
Proof. unfold strip_comments. rewrite scan_pass_total. reflexivity. Qed.

Lemma reachable_in_bounds (s : str) (cf : config) :
  reachable s cf -> i cf <= length s.
Proof.
  induction 1 as [|cf R IH Hlt]; simpl; [lia|].
  apply (step_scan_from s cf Hlt).
Qed.

(** C10: every iteration run under the guard advances the index by
    exactly 1 or 2 and never past the end of the input, whatever the state;
    hence the loop ends: with fuel for [len(s)] iterations or more it
    returns, with the index at the length. *)
Theorem scan_loop_terminates (s : str) :
  (forall cf, i cf < length s ->
     (i (step s cf) = i cf + 1 \/ i (step s cf) = i cf + 2) /\
     i (step s cf) <= length s) /\
  (forall fuel, length s <= fuel ->
     exists cf, loop fuel s init = Some cf /\ i cf = length s).
Proof.
  split.
  - intros cf Hlt. apply (step_scan_from s cf Hlt).
  - intros fuel Hfuel.
    destruct (loop_scan_from fuel s init) as (cf & A & B & _);
      simpl; try lia.
    exists cf; auto.
Qed.

(** ** Escapes inside literals *)

(** C4: in the string state and in the char state, at a backslash that is
    not the last character, one iteration appends the backslash and the
    character after it, moves the index past both and leaves the state
    as it is, whatever that second character is; so an escaped double
    quote does not close a string literal. *)
Theorem escape_pair_is_atomic (s : str) (cf : config) :
  state cf = string_lit \/ state cf = char_lit ->
  char_at s (i cf) = ch_backslash ->
  i cf + 1 < length s ->
  step s cf =
    {| state := state cf; i := i cf + 2;
       out_chars :=
         out_chars cf ++ [[ch_backslash]] ++ [[char_at s (i cf + 1)]] |} /\
  (char_at s (i cf + 1) = ch_dquote -> state cf = string_lit ->
   state (step s cf) = string_lit).
Proof.
  intros Hst Hc Hnext.
  assert (E : step s cf =
    {| state := state cf; i := i cf + 2;
       out_chars :=
         out_chars cf ++ [[ch_backslash]] ++ [[char_at s (i cf + 1)]] |}).
  { apply Nat.ltb_lt in Hnext.
    unfold step. destruct Hst as [-> | ->]; rewrite Hc, Hnext; reflexivity. }
  split; [exact E|].
  intros _ Hs. rewrite E. exact Hs.
Qed.

Lemma escape_pair_is_atomic_witness :
  step [ch_dquote; ch_backslash; ch_dquote; ch_dquote]
       {| state := string_lit; i := 1; out_chars := [[ch_dquote]] |} =
  {| state := string_lit; i := 3;
     out_chars := [[ch_dquote]; [ch_backslash]; [ch_dquote]] |}.
Proof.
  apply (escape_pair_is_atomic
           [ch_dquote; ch_backslash; ch_dquote; ch_dquote]
           {| state := string_lit; i := 1; out_chars := [[ch_dquote]] |});
    [left; reflexivity | reflexivity | simpl; lia].
Defined.

Lemma scan_loop_terminates_witness :
  exists cf,
    loop 3 [ch_slash; ch_slash; ch_nl] init = Some cf /\ i cf = 3.
Proof.
  apply (proj2 (scan_loop_terminates [ch_slash; ch_slash; ch_nl]) 3).
  simpl; lia.
Defined.

(** ** Line comments *)

Lemma skipn_past {s : str} {k : nat} (a : str) {b : str} :
  skipn k s = a ++ b -> skipn (k + length a) s = b.
Proof.
  revert k; induction a as [|x a IH]; intros k H; simpl in *.
  - rewrite Nat.add_0_r. exact H.
  - destruct (skipn_cons_inv H) as (_ & _ & Hr).
    replace (k + S (length a)) with (k + 1 + length a) by lia.
    apply IH. exact Hr.
Qed.

Lemma skipn_length_end {s : str} {k : nat} {a : str} :
  skipn k s = a -> k <= length s -> k + length a = length s.
Proof.
  intros H Hle. apply (f_equal (@length char)) in H.
  rewrite length_skipn in H. lia.
Qed.

Lemma step_opens_comment (s : str) (cf : config) {r : str} :
  state cf = normal ->
  skipn (i cf) s = ch_slash :: ch_slash :: r ->
  step s cf =
    {| state := line_comment; i := i cf + 2; out_chars := out_chars cf |}.
Proof.
  intros Hst E. unfold step. rewrite Hst, (startswith_two _ _ E).
  reflexivity.
Qed.

Lemma step_inside_comment (s : str) (cf : config) {c : char} {r : str} :
  state cf = line_comment ->
  skipn (i cf) s = c :: r ->
  step s cf =
    if N.eqb c ch_nl then
      {| state := normal; i := i cf + 1; out_chars := out_chars cf ++ [[c]] |}
    else
      {| state := line_comment; i := i cf + 1; out_chars := out_chars cf |}.
Proof.
  intros Hst E. destruct (skipn_cons_inv E) as (Hc & _).
  unfold step. rewrite Hst, Hc. reflexivity.
Qed.

Lemma iterate_comment_body (s : str) (body : str) :
  forall (cf : config) (rest : str),
    state cf = line_comment ->
    ~ In ch_nl body ->
    skipn (i cf) s = body ++ rest ->
    iterate (length body) s cf =
      {| state := line_comment; i := i cf + length body;
         out_chars := out_chars cf |}.
Proof.
  induction body as [|c body IH]; intros cf rest Hst Hnl E; simpl in *.
  - rewrite Nat.add_0_r. destruct cf; simpl in *; subst; reflexivity.
  - rewrite (step_inside_comment s cf Hst E).
    destruct (N.eqb_spec c ch_nl) as [Hc|_]; [tauto|].
    destruct (skipn_cons_inv E) as (_ & _ & Hr).
    rewrite (IH _ rest); simpl; auto.
    f_equal; lia.
Qed.

Lemma iterate_add (n m : nat) (s : str) (cf : config) :
  iterate (n + m) s cf = iterate m s (iterate n s cf).
Proof.
  revert cf; induction n as [|n IH]; intros cf; simpl; auto.
Qed.

(** C1: from a configuration in the normal state whose lookahead is two
    slashes, the marker and the comment body (the characters before the
    next newline) are consumed without anything being appended; the
    newline is then appended and the state is normal again, just behind
    it.  If the input ends before a newline, the run is consumed to the
    end of the input with nothing appended. *)
Theorem line_comment_is_discarded (s : str) (cf : config) (body rest : str) :
  state cf = normal ->
  ~ In ch_nl body ->
  (skipn (i cf) s = ch_slash :: ch_slash :: body ++ ch_nl :: rest ->
   iterate (1 + length body + 1) s cf =
     {| state := normal; i := i cf + 2 + length body + 1;
        out_chars := out_chars cf ++ [[ch_nl]] |}) /\
  (skipn (i cf) s = ch_slash :: ch_slash :: body ->
   iterate (1 + length body) s cf =
     {| state := line_comment; i := length s; out_chars := out_chars cf |}).
Proof.
  intros Hst Hnl. split.
  - intros E.
    assert (E2 : skipn (i cf + 2) s = body ++ ch_nl :: rest)
      by exact (skipn_past [ch_slash; ch_slash] E).
    rewrite <- Nat.add_assoc, iterate_add. simpl iterate at 2.
    rewrite (step_opens_comment s cf Hst E).
    rewrite iterate_add.
    rewrite (iterate_comment_body s body _ (ch_nl :: rest));
      simpl; auto.
    erewrite step_inside_comment;
      [ | reflexivity | exact (skipn_past body E2) ].
    reflexivity.
  - intros E.
    assert (Hle : i cf <= length s)
      by (destruct (skipn_cons_inv E) as (_ & Hlt & _); lia).
    assert (E2 : skipn (i cf + 2) s = body ++ [])
      by (rewrite app_nil_r; exact (skipn_past [ch_slash; ch_slash] E)).
    rewrite iterate_add. simpl iterate at 2.
    rewrite (step_opens_comment s cf Hst E).
    rewrite (iterate_comment_body s body _ []); simpl; auto.
    f_equal. apply (skipn_length_end E) in Hle. simpl in Hle. lia.
Qed.

Lemma line_comment_is_discarded_witness :
  iterate 4 (chars "a//bc" ++ [ch_nl] ++ chars "d")
    {| state := normal; i := 1; out_chars := [[97%N]] |} =
  {| state := normal; i := 6; out_chars := [[97%N]; [ch_nl]] |}.
Proof.
  apply (proj1 (line_comment_is_discarded
                  (chars "a//bc" ++ [ch_nl] ++ chars "d")
                  {| state := normal; i := 1; out_chars := [[97%N]] |}
                  (chars "bc") (chars "d")
                  eq_refl
                  ltac:(simpl; intros [H|[H|[]]]; discriminate H))).
  reflexivity.
Defined.

(** ** Every character is copied or belongs to a line comment *)

Lemma startswith_two_inv {s : str} {k : nat} {a b : char} :
  startswith s [a; b] k = true -> exists r, skipn k s = a :: b :: r.
Proof.
  unfold startswith. intros H. apply str_eqb_eq in H.
  destruct (skipn k s) as [|x [|y r]]; simpl in H; try discriminate.
  inversion H; subst. eauto.
Qed.

Lemma slice_one {s : str} {k : nat} {c : char} {r : str} :
  skipn k s = c :: r -> slice s k (k + 1) = [c].
Proof.
  intros E. unfold slice. replace (k + 1 - k) with 1 by lia.
  rewrite E. reflexivity.
Qed.

Lemma slice_two {s : str} {k : nat} {c d : char} {r : str} :
  skipn k s = c :: d :: r -> slice s k (k + 2) = [c; d].
Proof.
  intros E. unfold slice. replace (k + 2 - k) with 2 by lia.
  rewrite E. reflexivity.
Qed.

(** One iteration either appends exactly the characters it consumes, or
    appends nothing; the latter happens only on the two slashes that open
    a line comment and on a character other than the newline inside one. *)
Lemma step_copies_or_discards (s : str) (cf : config) :
  i cf < length s ->
  let cf' := step s cf in
  (joined cf' = joined cf ++ slice s (i cf) (i cf') /\
   state cf' <> line_comment) \/
  (joined cf' = joined cf /\ state cf = normal /\
   state cf' = line_comment /\ i cf' = i cf + 2 /\
   startswith s [ch_slash; ch_slash] (i cf) = true) \/
  (joined cf' = joined cf /\ state cf = line_comment /\
   state cf' = line_comment /\ i cf' = i cf + 1 /\
   char_at s (i cf) <> ch_nl).
Proof.
  intros Hlt. destruct cf as [st k out]; simpl in *.
  destruct (skipn_nonempty s k Hlt) as (c & r & E).
  destruct (skipn_cons_inv E) as (Hc & _ & Hr).
  pose proof (slice_one E) as S1.
  unfold step, joined; cbn [state i out_chars]. rewrite Hc. clear Hc.
  rewrite !(startswith_two _ _ E), (next_exists E).
  destruct st;
    (destruct r as [|d r'];
     [ | pose proof (slice_two E) as S2;
         destruct (skipn_cons_inv Hr) as (Hd & _ & _); rewrite ?Hd;
         clear Hd ]);
    cbv beta match; rewrite ?andb_true_r, ?andb_false_r;
    split_ifs; cbn [state i out_chars];
    rewrite ?concat_app, ?S1, ?S2; cbn [concat app];
    try (left; split; [ | discriminate ]);
    bool_facts; subst; rewrite ?app_nil_r; try reflexivity.
  - right; left. repeat split; reflexivity.
  - right; right. repeat split; auto. now apply N.eqb_neq.
  - right; right. repeat split; auto. now apply N.eqb_neq.
Qed.

Lemma select_app (m1 m2 : list bool) :
  forall s, select (m1 ++ m2) s =
            select m1 s ++ select m2 (skipn (length m1) s).
Proof.
  induction m1 as [|b m1 IH]; intros s; simpl.
  - reflexivity.
  - destruct s as [|c s].
    + destruct m2; reflexivity.
    + rewrite IH. destruct b; reflexivity.
Qed.

Lemma select_all (n : nat) :
  forall s, select (repeat true n) s = firstn n s.
Proof.
  induction n as [|n IH]; intros [|c s]; simpl; auto.
  rewrite IH. reflexivity.
Qed.

Lemma select_none (n : nat) :
  forall s, select (repeat false n) s = [].
Proof.
  induction n as [|n IH]; intros [|c s]; simpl; auto.
Qed.

Lemma nth_extended (m : list bool) (b : bool) (n j : nat) :
  nth j (m ++ repeat b n) true = false ->
  (j < length m /\ nth j m true = false) \/
  (length m <= j < length m + n /\ b = false).
Proof.
  intros H. destruct (Nat.lt_ge_cases j (length m)) as [L|G].
  - rewrite app_nth1 in H by exact L. auto.
  - rewrite app_nth2 in H by exact G.
    destruct (Nat.lt_ge_cases (j - length m) n) as [L'|G'].
    + right. split; [lia|].
      destruct b; auto.
      rewrite nth_repeat_lt in H by exact L'. discriminate.
    + rewrite nth_overflow in H by (rewrite repeat_length; lia).
      discriminate.
Qed.

Lemma nth_extension (m : list bool) (b : bool) (n j : nat) :
  length m <= j < length m + n -> nth j (m ++ repeat b n) true = b.
Proof.
  intros H. rewrite app_nth2 by lia. apply nth_repeat_lt. lia.
Qed.

Lemma step_increases (s : str) (cf : config) : i cf < i (step s cf).
Proof.
  unfold step. destruct (state cf); split_ifs; simpl; lia.
Qed.

Lemma iterate_succ (n : nat) (s : str) (cf : config) :
  iterate (S n) s cf = step s (iterate n s cf).
Proof.
  revert cf; induction n as [|n IH]; intros cf; [reflexivity|].
  change (iterate (S (S n)) s cf) with (iterate (S n) s (step s cf)).
  rewrite IH. reflexivity.
Qed.

Lemma iterate_increases (s : str) (cf : config) (n m : nat) :
  n < m -> i (iterate n s cf) < i (iterate m s cf).
Proof.
  induction 1 as [|m _ IH]; rewrite iterate_succ.
  - apply step_increases.
  - pose proof (step_increases s (iterate m s cf)). lia.
Qed.

Lemma reachable_iterate (s : str) (cf : config) :
  reachable s cf -> exists n, cf = iterate n s init.
Proof.
  induction 1 as [|cf _ (n & ->) _].
  - exists 0. reflexivity.
  - exists (S n). rewrite iterate_succ. reflexivity.
Qed.

(** A position is consumed by one iteration only. *)
Lemma consuming_iteration_unique (s : str) (c1 c2 : config) (j : nat) :
  reachable s c1 -> reachable s c2 ->
  i c1 <= j < i (step s c1) ->
  i c2 <= j < i (step s c2) ->
  c1 = c2.
Proof.
  intros R1 R2 H1 H2.
  destruct (reachable_iterate s c1 R1) as (n1 & ->).
  destruct (reachable_iterate s c2 R2) as (n2 & ->).
  rewrite <- !iterate_succ in *.
  destruct (Nat.lt_trichotomy n1 n2) as [L | [-> | L]]; [ | reflexivity | ].
  - assert (i (iterate (S n1) s init) <= i (iterate n2 s init)).
    { destruct (Nat.eq_dec (S n1) n2) as [<- | Hne]; [lia|].
      pose proof (iterate_increases s init (S n1) n2). lia. }
    lia.
  - assert (i (iterate (S n2) s init) <= i (iterate n1 s init)).
    { destruct (Nat.eq_dec (S n2) n1) as [<- | Hne]; [lia|].
      pose proof (iterate_increases s init (S n2) n1). lia. }
    lia.
Qed.

Lemma scan_inv_init (s : str) : scan_inv s init.
Proof.
  exists []. simpl. repeat split; auto; try lia.
  intros H; discriminate.
Qed.

Lemma scan_inv_step (s : str) (cf : config) :
  reachable s cf ->
  i cf < length s -> scan_inv s cf -> scan_inv s (step s cf).
Proof.
  intros R Hlt (mask & Hlen & Hsel & Hiff & Hdrop & Hrun).
  destruct (step_scan_from s cf Hlt) as (_ & Hadv & _).
  set (w := i (step s cf) - i cf).
  assert (Hw : i (step s cf) = i cf + w) by (unfold w; lia).
  (* the flag of the positions consumed by this iteration *)
  assert (Hext : forall b,
            (b = false <-> state (step s cf) = line_comment) ->
            forall j, j < i (step s cf) ->
              (nth j (mask ++ repeat b w) true = false <->
               in_line_comment s j)).
  { intros b Hb j Hj.
    destruct (Nat.lt_ge_cases j (i cf)) as [L | G].
    - rewrite app_nth1 by lia. apply Hiff. exact L.
    - rewrite nth_extension by lia. rewrite Hb. split.
      + intros Hst. exists cf. repeat split; auto; lia.
      + intros (c0 & R0 & _ & Hin & Hst).
        assert (c0 = cf)
          by (apply (consuming_iteration_unique s c0 cf j); auto; lia).
        subst c0. exact Hst. }
  assert (Hold : forall b j, j < i cf ->
            nth j (mask ++ repeat b w) true = false -> in_slash_run s j).
  { intros b j L H. rewrite app_nth1 in H by lia. apply Hdrop; auto. }
  destruct (step_copies_or_discards s cf Hlt)
    as [(Hj & Hst) | [(Hj & Hn & Hst & Hi & Hsl) | (Hj & Hl & Hst & Hi & Hc)]].
  - exists (mask ++ repeat true w). repeat split.
    + rewrite length_app, repeat_length. lia.
    + rewrite select_app, select_all, Hlen, Hj, Hsel. reflexivity.
    + apply Hext. split; [discriminate | contradiction]. assumption.
    + apply Hext. split; [discriminate | contradiction]. assumption.
    + intros j Hjlt Hnth.
      destruct (nth_extended _ _ _ _ Hnth) as [(L & N) | (_ & F)];
        [ | discriminate ].
      apply Hdrop; auto. lia.
    + intros F. contradiction.
  - destruct (startswith_two_inv Hsl) as (r & E).
    destruct (skipn_cons_inv E) as (C0 & _ & E1).
    destruct (skipn_cons_inv E1) as (C1 & _ & _).
    assert (Hfree : forall q, i cf <= q < i cf + 2 -> char_at s q <> ch_nl).
    { intros q Hq. assert (Q : q = i cf \/ q = i cf + 1) by lia.
      destruct Q as [-> | ->]; [rewrite C0 | rewrite C1]; discriminate. }
    exists (mask ++ repeat false w). repeat split.
    + rewrite length_app, repeat_length. lia.
    + rewrite select_app, select_none, app_nil_r, Hj, Hsel. reflexivity.
    + apply Hext. tauto. assumption.
    + apply Hext. tauto. assumption.
    + intros j Hjlt Hnth.
      destruct (Nat.lt_ge_cases j (i cf)) as [L | G]; [eapply Hold; eauto|].
      exists (i cf). repeat split; auto; try lia.
      intros q Hq. apply Hfree. lia.
    + intros _. exists (i cf). repeat split; auto; try lia.
      intros q Hq. apply Hfree. lia.
  - destruct (Hrun Hl) as (p & Hp & Hsl & Hfree).
    assert (Hfree' : forall q, p <= q <= i cf -> char_at s q <> ch_nl).
    { intros q Hq. destruct (Nat.eq_dec q (i cf)) as [-> | Hne]; auto.
      apply Hfree. lia. }
    exists (mask ++ repeat false w). repeat split.
    + rewrite length_app, repeat_length. lia.
    + rewrite select_app, select_none, app_nil_r, Hj, Hsel. reflexivity.
    + apply Hext. tauto. assumption.
    + apply Hext. tauto. assumption.
    + intros j Hjlt Hnth.
      destruct (Nat.lt_ge_cases j (i cf)) as [L | G]; [eapply Hold; eauto|].
      exists p. repeat split; auto; try lia.
      intros q Hq. apply Hfree'. lia.
    + intros _. exists p. repeat split; auto; try lia.
      intros q Hq. apply Hfree'. lia.
Qed.

Lemma reachable_scan_inv (s : str) (cf : config) :
  reachable s cf -> scan_inv s cf.
Proof.
  induction 1 as [|cf R IH Hlt].
  - apply scan_inv_init.
  - apply scan_inv_step; assumption.
Qed.

Lemma loop_reachable (fuel : nat) (s : str) :
  forall cf cf', reachable s cf -> loop fuel s cf = Some cf' ->
                 reachable s cf'.
Proof.
  induction fuel as [|fuel IH]; intros cf cf' R H; simpl in H;
    destruct (i cf <? length s) eqn:G; try discriminate.
  - inversion H; subst; exact R.
  - apply Nat.ltb_lt in G. apply (IH (step s cf)); auto.
    apply reach_step; assumption.
  - inversion H; subst; exact R.
Qed.

(** The invariant at the end of the loop. *)
Lemma scan_pass_selection (s : str) :
  exists mask,
    length mask = length s /\
    scan_pass s = Some (select mask s) /\
    (forall j, j < length s ->
               (nth j mask true = false <-> in_line_comment s j)) /\
    (forall j, j < length s -> nth j mask true = false ->
               in_slash_run s j).
Proof.
  destruct (loop_scan_from (length s) s init) as (cf & A & B & _);
    simpl; try lia.
  assert (R : reachable s cf)
    by exact (loop_reachable _ s init cf (reach_init s) A).
  destruct (reachable_scan_inv s cf R)
    as (mask & Hlen & Hsel & Hiff & Hdrop & _).
  exists mask. repeat split.
  - congruence.
  - unfold scan_pass. rewrite A. simpl. congruence.
  - apply Hiff. lia.
  - apply Hiff. lia.
  - intros j Hj. apply Hdrop. lia.
Qed.

(** ** Literals and block comments in the scan pass *)

Lemma scan_string_body (b : str) :
  forall rest,
    literal_body ch_dquote b = true ->
    scan_from string_lit (b ++ ch_dquote :: rest) =
    b ++ ch_dquote :: scan_from normal rest.
Proof.
  induction b as [b IH] using (induction_ltof1 _ (@length char)).
  unfold ltof in IH. intros rest Hb.
  destruct b as [|c [|d b']]; cbn [literal_body] in Hb; cbn [app];
    unfold_scan.
  - destruct rest; reflexivity.
  - destruct (N.eqb c ch_backslash); [discriminate|].
    rewrite andb_true_r in Hb. apply negb_true_iff in Hb. rewrite Hb.
    f_equal. apply (IH []); simpl; auto.
  - destruct (N.eqb c ch_backslash).
    + do 2 f_equal. apply IH; simpl; auto.
    + apply andb_true_iff in Hb as [Hq Hb].
      apply negb_true_iff in Hq. rewrite Hq.
      f_equal. apply (IH (d :: b')); simpl; auto.
Qed.

Lemma scan_char_body (b : str) :
  forall rest,
    literal_body ch_squote b = true ->
    scan_from char_lit (b ++ ch_squote :: rest) =
    b ++ ch_squote :: scan_from normal rest.
Proof.
  induction b as [b IH] using (induction_ltof1 _ (@length char)).
  unfold ltof in IH. intros rest Hb.
  destruct b as [|c [|d b']]; cbn [literal_body] in Hb; cbn [app];
    unfold_scan.
  - destruct rest; reflexivity.
  - destruct (N.eqb c ch_backslash); [discriminate|].
    rewrite andb_true_r in Hb. apply negb_true_iff in Hb. rewrite Hb.
    f_equal. apply (IH []); simpl; auto.
  - destruct (N.eqb c ch_backslash).
    + do 2 f_equal. apply IH; simpl; auto.
    + apply andb_true_iff in Hb as [Hq Hb].
      apply negb_true_iff in Hq. rewrite Hq.
      f_equal. apply (IH (d :: b')); simpl; auto.
Qed.

Lemma scan_block_body (b : str) :
  forall rest,
    block_body b = true ->
    scan_from block_comment (b ++ ch_star :: ch_slash :: rest) =
    b ++ ch_star :: ch_slash :: scan_from normal rest.
Proof.
  induction b as [|c b IH]; intros rest Hb.
  - reflexivity.
  - cbn [block_body] in Hb. apply andb_true_iff in Hb as [Hc Hb].
    apply negb_true_iff in Hc.
    specialize (IH rest Hb). cbn [app]. unfold_scan.
    destruct b as [|d b']; cbn [app] in *.
    + replace (N.eqb ch_star ch_slash) with false by reflexivity.
      rewrite andb_false_r, IH. reflexivity.
    + rewrite Hc, IH. reflexivity.
Qed.

(** In the scan pass a closed string literal, a closed character literal
    and a closed block comment met in the normal state come out as they
    are, whatever they contain, and the scan goes on in the normal state
    behind them. *)
Lemma scan_keeps_literals_and_blocks (b rest : str) :
  (literal_body ch_dquote b = true ->
   scan_from normal (ch_dquote :: b ++ ch_dquote :: rest) =
   ch_dquote :: b ++ ch_dquote :: scan_from normal rest) /\
  (literal_body ch_squote b = true ->
   scan_from normal (ch_squote :: b ++ ch_squote :: rest) =
   ch_squote :: b ++ ch_squote :: scan_from normal rest) /\
  (block_body b = true ->
   scan_from normal (ch_slash :: ch_star :: b ++ ch_star :: ch_slash :: rest) =
   ch_slash :: ch_star :: b ++ ch_star :: ch_slash :: scan_from normal rest).
Proof.
  repeat split; intros Hb.
  - rewrite <- (scan_string_body b rest Hb).
    destruct b; reflexivity.
  - rewrite <- (scan_char_body b rest Hb).
    destruct b; reflexivity.
  - rewrite <- (scan_block_body b rest Hb). reflexivity.
Qed.

(** ** Literals and block comments in the written text *)

(** C2: a string literal that spans two lines and has a space before its
    line break, after two slashes.  The scan pass returns it as it is; the
    post-pass, which strips every line, removes the space inside the
    literal, so the written text no longer contains the literal. *)
Theorem string_literal_altered_by_post_pass :
  let body := chars "// " ++ [ch_nl] ++ chars "y" in
  let literal := [ch_dquote] ++ body ++ [ch_dquote] in
  let input := chars "x = " ++ literal ++ chars ";" ++ [ch_nl] in
  literal_body ch_dquote body = true /\
  scan_pass input = Some input /\
  contains input literal = true /\
  strip_comments input =
    Some (chars "x = " ++ [ch_dquote] ++ chars "//" ++ [ch_nl] ++
          chars "y" ++ [ch_dquote] ++ chars ";" ++ [ch_nl]) /\
  exists out, strip_comments input = Some out /\ contains out literal = false.
Proof.
  cbv zeta. repeat split; try (vm_compute; reflexivity).
  exists (chars "x = " ++ [ch_dquote] ++ chars "//" ++ [ch_nl] ++
          chars "y" ++ [ch_dquote] ++ chars ";" ++ [ch_nl]).
  split; vm_compute; reflexivity.
Qed.

(** C3: a block comment that spans two lines, with two slashes and a
    space before the line break.  The scan pass returns it as it is; the
    post-pass removes the space, so the written text no longer contains
    the block comment verbatim. *)
Theorem block_comment_altered_by_post_pass :
  let body := chars " // " ++ [ch_nl] ++ chars " " in
  let comment := chars "/*" ++ body ++ chars "*/" in
  let input := comment ++ [ch_nl] ++ chars "y = 1;" ++ [ch_nl] in
  block_body body = true /\
  scan_pass input = Some input /\
  contains input comment = true /\
  strip_comments input =
    Some (chars "/* //" ++ [ch_nl] ++ chars " */" ++ [ch_nl] ++
          chars "y = 1;" ++ [ch_nl]) /\
  exists out, strip_comments input = Some out /\ contains out comment = false.
Proof.
  cbv zeta. repeat split; try (vm_compute; reflexivity).
  exists (chars "/* //" ++ [ch_nl] ++ chars " */" ++ [ch_nl] ++
          chars "y = 1;" ++ [ch_nl]).
  split; vm_compute; reflexivity.
Qed.

(** ** The post-pass: lines, stripping and joining *)

Lemma linebreak_is_space (c : char) :
  is_linebreak c = true -> is_space c = true.
Proof.
  unfold is_linebreak. intros H.
  apply existsb_exists in H as (x & Hin & Hx).
  apply N.eqb_eq in Hx; subst x.
  simpl in Hin.
  repeat (destruct Hin as [<- | Hin]; [reflexivity|]).
  contradiction.
Qed.

Lemma splitlines_cons (c : char) (r : str) :
  splitlines (c :: r) =
  if is_linebreak c then [] :: splitlines (after_break c r)
  else match splitlines r with
       | [] => [[c]]
       | ln :: lns => (c :: ln) :: lns
       end.
Proof.
  cbn [splitlines]. destruct (is_linebreak c); [|reflexivity].
  unfold after_break. destruct r as [|d r']; [reflexivity|].
  destruct (N.eqb c ch_cr && N.eqb d ch_nl); reflexivity.
Qed.

Lemma length_after_break (c : char) (r : str) :
  length (after_break c r) <= length r.
Proof.
  unfold after_break. destruct r as [|d r']; simpl; auto.
  destruct (N.eqb c ch_cr && N.eqb d ch_nl); simpl; lia.
Qed.

(** Induction along the way [splitlines] reads its argument. *)
Lemma splitlines_ind (P : str -> Prop) :
  P [] ->
  (forall c r, is_linebreak c = true -> P (after_break c r) -> P (c :: r)) ->
  (forall c r, is_linebreak c = false -> P r -> P (c :: r)) ->
  forall s, P s.
Proof.
  intros Hnil Hbreak Hplain s.
  induction s as [s IH] using (induction_ltof1 _ (@length char)).
  unfold ltof in IH. destruct s as [|c r]; auto.
  destruct (is_linebreak c) eqn:B.
  - apply Hbreak; auto. apply IH.
    pose proof (length_after_break c r). simpl. lia.
  - apply Hplain; auto.
Qed.

Lemma splitlines_no_break (s : str) :
  Forall (fun ln => no_break ln = true) (splitlines s).
Proof.
  induction s as [|c r B IH|c r B IH] using splitlines_ind;
    rewrite ?splitlines_cons, ?B.
  - constructor.
  - constructor; auto.
  - destruct (splitlines r) as [|ln lns].
    + constructor; auto. unfold no_break; simpl. rewrite B. reflexivity.
    + inversion IH; subst. constructor; auto.
      unfold no_break in *; simpl. rewrite B. auto.
Qed.

Lemma splitlines_nil_inv (s : str) : splitlines s = [] -> s = [].
Proof.
  destruct s as [|c r]; auto. rewrite splitlines_cons.
  destruct (is_linebreak c); [discriminate|].
  destruct (splitlines r); discriminate.
Qed.

Lemma rstrip_idem (ln : str) : rstrip (rstrip ln) = rstrip ln.
Proof.
  induction ln as [|c r IH]; simpl; auto.
  destruct (rstrip r) as [|x r'] eqn:E.
  - destruct (is_space c) eqn:S; simpl; auto. rewrite S. reflexivity.
  - change (rstrip (c :: x :: r')) with
      (match rstrip (x :: r') with
       | [] => if is_space c then [] else [c]
       | y :: r'' => c :: y :: r''
       end).
    rewrite IH. reflexivity.
Qed.

(** A line is its stripped form followed by whitespace only. *)
Lemma rstrip_split (ln : str) :
  exists w, ln = rstrip ln ++ w /\ forallb is_space w = true.
Proof.
  induction ln as [|c r (w & E & W)]; simpl.
  - exists []. auto.
  - destruct (rstrip r) as [|x r'].
    + destruct (is_space c) eqn:S.
      * exists (c :: w). simpl in *. rewrite S, W. subst; auto.
      * exists w. simpl in *. subst; auto.
    + exists w. simpl in *. rewrite E at 1. auto.
Qed.

Lemma rstrip_forallb (P : char -> bool) (ln : str) :
  forallb P ln = true -> forallb P (rstrip ln) = true.
Proof.
  destruct (rstrip_split ln) as (w & E & _). intros H.
  rewrite E, forallb_app in H. apply andb_true_iff in H. tauto.
Qed.

Lemma join_nl_render (lines : list str) :
  lines <> [] -> join_nl (map rstrip lines) ++ [ch_nl] = render lines.
Proof.
  induction lines as [|ln [|ln2 rest] IH]; intros Hne.
  - contradiction.
  - simpl. rewrite app_nil_r. reflexivity.
  - change (join_nl (map rstrip (ln :: ln2 :: rest))) with
      (rstrip ln ++ ch_nl :: join_nl (map rstrip (ln2 :: rest))).
    change (render (ln :: ln2 :: rest)) with
      ((rstrip ln ++ [ch_nl]) ++ render (ln2 :: rest)).
    rewrite <- IH by discriminate.
    rewrite <- !app_assoc. reflexivity.
Qed.

Lemma post_pass_render (s : str) :
  post_pass s =
  match splitlines s with
  | [] => [ch_nl]
  | _ :: _ => render (splitlines s)
  end.
Proof.
  unfold post_pass. destruct (splitlines s) as [|ln lns] eqn:E.
  - reflexivity.
  - apply join_nl_render. discriminate.
Qed.

(** ** The post-pass applied twice *)

Lemma splitlines_line (ln rest : str) :
  no_break ln = true ->
  splitlines (ln ++ ch_nl :: rest) = ln :: splitlines rest.
Proof.
  unfold no_break. induction ln as [|c ln IH]; intros H.
  - cbn [app]. rewrite splitlines_cons.
    replace (is_linebreak ch_nl) with true by reflexivity.
    unfold after_break. destruct rest; eval_tests; reflexivity.
  - cbn [forallb] in H. apply andb_true_iff in H as [Hc H].
    apply negb_true_iff in Hc.
    cbn [app]. rewrite splitlines_cons, Hc, (IH H). reflexivity.
Qed.

Lemma splitlines_render (lines : list str) :
  Forall (fun ln => no_break ln = true) lines ->
  splitlines (render lines) = map rstrip lines.
Proof.
  induction 1 as [|ln rest Hln _ IH]; [reflexivity|].
  change (render (ln :: rest)) with ((rstrip ln ++ [ch_nl]) ++ render rest).
  rewrite <- app_assoc. cbn [app map].
  rewrite splitlines_line, IH; [reflexivity|].
  apply rstrip_forallb. exact Hln.
Qed.

Lemma render_stripped (lines : list str) :
  render (map rstrip lines) = render lines.
Proof.
  unfold render. induction lines as [|ln rest IH]; [reflexivity|].
  cbn [map flat_map]. rewrite rstrip_idem, IH. reflexivity.
Qed.

(** The post-pass changes nothing in a text it has produced. *)
Lemma post_pass_idem (s : str) : post_pass (post_pass s) = post_pass s.
Proof.
  rewrite (post_pass_render s).
  pose proof (splitlines_no_break s) as H.
  destruct (splitlines s) as [|ln lns] eqn:E.
  - vm_compute. reflexivity.
  - rewrite post_pass_render, (splitlines_render _ H).
    cbn [map]. apply (render_stripped (ln :: lns)).
Qed.

(** Each line of the text becomes, stripped, one line of the result. *)
Lemma splitlines_post_pass (s : str) :
  s <> [] -> splitlines (post_pass s) = map rstrip (splitlines s).
Proof.
  intros Hne. rewrite post_pass_render.
  destruct (splitlines s) as [|ln lns] eqn:E.
  - apply splitlines_nil_inv in E. contradiction.
  - apply splitlines_render. rewrite <- E. apply splitlines_no_break.
Qed.

(** ** The end of the written text *)

Lemma ends_with_spec (s t : str) :
  ends_with s t = true <-> exists p, s = p ++ t.
Proof.
  unfold ends_with. rewrite andb_true_iff, str_eqb_eq, Nat.leb_le. split.
  - intros [E _]. exists (firstn (length s - length t) s).
    pose proof (firstn_skipn (length s - length t) s) as F.
    rewrite E in F. symmetry. exact F.
  - intros (p & ->). rewrite length_app. split; [|lia].
    replace (length p + length t - length t) with (length p + 0) by lia.
    rewrite skipn_app, Nat.add_0_r, skipn_all.
    replace (length p - length p) with 0 by lia. reflexivity.
Qed.

Lemma no_break_no_nl (ln : str) : no_break ln = true -> ~ In ch_nl ln.
Proof.
  unfold no_break. intros H Hin.
  rewrite forallb_forall in H. specialize (H _ Hin). discriminate.
Qed.

Lemma stripped_lines_no_nl (s : str) :
  Forall (fun ln => ~ In ch_nl ln) (map rstrip (splitlines s)).
Proof.
  apply Forall_map. eapply Forall_impl; [|apply splitlines_no_break].
  intros ln H. apply no_break_no_nl. apply rstrip_forallb. exact H.
Qed.

Lemma tail_ends_with_nl (x z : str) :
  (exists p, x ++ ch_nl :: z = p ++ [ch_nl]) <->
  (z = [] \/ exists p, z = p ++ [ch_nl]).
Proof.
  split.
  - intros (p & E). destruct z as [|z0 z1]; [left; reflexivity | right].
    destruct (@exists_last _ (z0 :: z1)) as (z' & y & Ez); [discriminate|].
    rewrite Ez in *.
    change (x ++ ch_nl :: z' ++ [y]) with (x ++ (ch_nl :: z') ++ [y]) in E.
    rewrite app_assoc in E. apply app_inj_tail in E as [_ ->].
    exists z'. reflexivity.
  - intros [-> | (p & ->)].
    + exists x. reflexivity.
    + exists (x ++ ch_nl :: p). rewrite <- app_assoc. reflexivity.
Qed.

(** Lines free of newlines, joined by newlines, end in a newline exactly
    when there are at least two lines and the last one is empty. *)
Lemma join_nl_ends_with_nl (lines : list str) :
  Forall (fun ln => ~ In ch_nl ln) lines ->
  (exists p, join_nl lines = p ++ [ch_nl]) <->
  (2 <= length lines /\ last lines [] = []).
Proof.
  induction lines as [|ln [|ln2 rest] IH]; intros Hall.
  - simpl. split.
    + intros (p & H). destruct p; discriminate.
    + lia.
  - simpl. split.
    + intros (p & ->). inversion Hall; subst.
      exfalso. apply H1. apply in_or_app. right. left. reflexivity.
    + lia.
  - inversion Hall as [|? ? Hln Hrest]; subst.
    specialize (IH Hrest).
    change (join_nl (ln :: ln2 :: rest)) with
      (ln ++ ch_nl :: join_nl (ln2 :: rest)).
    change (last (ln :: ln2 :: rest) []) with (last (ln2 :: rest) []).
    rewrite tail_ends_with_nl, IH.
    destruct rest as [|ln3 rest'].
    + simpl. split.
      * intros [-> | (A & _)]; [split; [lia | reflexivity] | lia].
      * intros (_ & ->). left. reflexivity.
    + split.
      * intros [E | H]; [|split; [simpl; lia | apply H]].
        change (ln2 ++ ch_nl :: join_nl (ln3 :: rest') = []) in E.
        destruct ln2; discriminate.
      * intros (_ & H). right. split; [simpl; lia | exact H].
Qed.

(** C6: the written text always ends with a newline.  It ends with two
    newlines exactly when the scanned text has at least two lines and
    its last line is empty or whitespace only; otherwise it ends with
    exactly one. *)
Theorem output_ends_with_newline (s : str) :
  exists scanned out,
    scan_pass s = Some scanned /\
    strip_comments s = Some out /\
    ends_with out [ch_nl] = true /\
    (ends_with out [ch_nl; ch_nl] = true <->
     2 <= length (splitlines scanned) /\
     rstrip (last (splitlines scanned) []) = []).
Proof.
  exists (scan_from normal s), (post_pass (scan_from normal s)).
  split; [apply scan_pass_total|].
  split; [apply strip_comments_total|].
  set (x := scan_from normal s). unfold post_pass. split.
  - apply ends_with_spec. eexists; reflexivity.
  - rewrite ends_with_spec.
    assert (T : (exists p, join_nl (map rstrip (splitlines x)) ++ [ch_nl] =
                           p ++ [ch_nl; ch_nl]) <->
                (exists p, join_nl (map rstrip (splitlines x)) =
                           p ++ [ch_nl])).
    { split; intros (p & E); exists p.
      - change [ch_nl; ch_nl] with ([ch_nl] ++ [ch_nl]) in E.
        rewrite app_assoc in E. apply app_inj_tail in E. tauto.
      - rewrite E, <- app_assoc. reflexivity. }
    rewrite T, (join_nl_ends_with_nl _ (stripped_lines_no_nl x)).
    rewrite length_map.
    replace (last (map rstrip (splitlines x)) [])
      with (rstrip (last (splitlines x) [])); [tauto|].
    generalize (splitlines x). intros lines.
    induction lines as [|ln [|ln2 rest] IH]; auto.
Qed.

(** The claim as the specification states it fails on an input that ends
    with an empty line: the written text then ends with two newlines. *)
Lemma two_trailing_newlines :
  strip_comments (chars "a" ++ [ch_nl; ch_nl]) =
    Some (chars "a" ++ [ch_nl; ch_nl]) /\
  ends_with (chars "a" ++ [ch_nl; ch_nl]) [ch_nl; ch_nl] = true.
Proof. split; vm_compute; reflexivity. Qed.

(** ** Newlines *)

Lemma count_nl_cons (c : char) (s : str) :
  count_nl (c :: s) = (if N.eqb c ch_nl then 1 else 0) + count_nl s.
Proof.
  unfold count_nl. simpl. destruct (N.eqb c ch_nl); reflexivity.
Qed.

Lemma count_nl_app (a b : str) :
  count_nl (a ++ b) = count_nl a + count_nl b.
Proof.
  unfold count_nl. rewrite filter_app, length_app. reflexivity.
Qed.

Lemma count_nl_absent (ln : str) : ~ In ch_nl ln -> count_nl ln = 0.
Proof.
  induction ln as [|c r IH]; intros H; auto.
  rewrite count_nl_cons, IH by (intros F; apply H; right; exact F).
  destruct (N.eqb_spec c ch_nl) as [->|_]; auto.
  exfalso. apply H. left. reflexivity.
Qed.

(** The scan pass keeps every newline and adds none. *)
Lemma count_nl_scan_from (s : str) :
  forall st, count_nl (scan_from st s) = count_nl s.
Proof.
  induction s as [s IH] using (induction_ltof1 _ (@length char)).
  unfold ltof in IH. intros st.
  destruct s as [|c [|d r]]; [destruct st; reflexivity | | ];
    destruct st; unfold_scan; split_ifs; bool_facts; subst;
    rewrite ?count_nl_cons, ?IH by (simpl; lia);
    rewrite ?count_nl_cons; eval_tests;
    repeat match goal with
           | H : N.eqb _ _ = false |- _ => rewrite H
           end;
    reflexivity.
Qed.

Lemma forallb_scan_from (P : char -> bool) (s : str) :
  forall st, forallb P s = true -> forallb P (scan_from st s) = true.
Proof.
  induction s as [s IH] using (induction_ltof1 _ (@length char)).
  unfold ltof in IH. intros st H.
  destruct s as [|c [|d r]]; [destruct st; reflexivity | | ];
    pose proof H as H'; cbn [forallb] in H';
    repeat (apply andb_true_iff in H'; destruct H' as [? H']);
    destruct st; unfold_scan; split_ifs; cbn [forallb];
    repeat (apply andb_true_iff; split); auto;
    apply IH; simpl; auto; try lia;
    repeat (apply andb_true_iff; split); auto.
Qed.

Lemma count_nl_render (lines : list str) :
  Forall (fun ln => no_break ln = true) lines ->
  count_nl (render lines) = length lines.
Proof.
  induction 1 as [|ln rest Hln _ IH]; auto.
  unfold render in *. simpl.
  rewrite !count_nl_app, IH, count_nl_absent.
  - reflexivity.
  - apply no_break_no_nl. apply rstrip_forallb. exact Hln.
Qed.

Lemma count_nl_post_pass (s : str) :
  count_nl (post_pass s) = Nat.max 1 (length (splitlines s)).
Proof.
  rewrite post_pass_render.
  pose proof (splitlines_no_break s) as H.
  destruct (splitlines s) as [|ln lns]; [reflexivity|].
  rewrite (count_nl_render _ H). reflexivity.
Qed.

(** Every newline ends a line of [splitlines]. *)
Lemma count_nl_le_lines (s : str) : count_nl s <= length (splitlines s).
Proof.
  induction s as [|c r B IH|c r B IH] using splitlines_ind;
    rewrite ?splitlines_cons, ?B, ?count_nl_cons; auto.
  - unfold after_break in *. cbn [length].
    destruct r as [|d r'];
      [change (count_nl []) with 0; destruct (N.eqb c ch_nl); simpl; lia|].
    destruct (N.eqb c ch_cr && N.eqb d ch_nl) eqn:E.
    + bool_facts. subst. rewrite count_nl_cons. eval_tests. cbv beta match. lia.
    + destruct (N.eqb c ch_nl); lia.
  - destruct (N.eqb_spec c ch_nl) as [->|_]; [discriminate B|].
    destruct (splitlines r); simpl in *; lia.
Qed.

(** Without other line boundaries, a line is a newline or the
    unterminated rest. *)
Lemma lines_le_count_nl (s : str) :
  only_nl_breaks s = true -> length (splitlines s) <= count_nl s + 1.
Proof.
  unfold only_nl_breaks.
  induction s as [|c r IH]; intros H; [simpl; lia|].
  cbn [forallb] in H. apply andb_true_iff in H as [Hc Hr].
  specialize (IH Hr). rewrite splitlines_cons, count_nl_cons.
  destruct (is_linebreak c) eqn:B.
  - simpl in Hc. apply N.eqb_eq in Hc. subst c. eval_tests.
    unfold after_break. destruct r; simpl in *; eval_tests; simpl; lia.
  - destruct (splitlines r); simpl in *; lia.
Qed.

(** C5: the written text has at least as many newlines as the input,
    and at most one more when the only line boundaries of the input are
    newlines.  No line is merged with another: the scan pass keeps every
    newline of the input (the mask holds at its position), and the
    post-pass turns each line of the scanned text into one line of its
    own, stripped. *)
Theorem newline_count_preserved (s : str) :
  exists scanned out mask,
    scan_pass s = Some scanned /\
    strip_comments s = Some out /\
    count_nl s <= count_nl out /\
    (only_nl_breaks s = true -> count_nl out <= count_nl s + 1) /\
    length mask = length s /\
    scanned = select mask s /\
    (forall j, j < length s -> char_at s j = ch_nl ->
               nth j mask true = true) /\
    (scanned <> [] -> splitlines out = map rstrip (splitlines scanned)).
Proof.
  destruct (scan_pass_selection s) as (mask & Hlen & Hsel & _ & Hdrop).
  pose proof (scan_pass_total s) as Hscan.
  exists (scan_from normal s), (post_pass (scan_from normal s)), mask.
  split; [exact Hscan|].
  split; [apply strip_comments_total|].
  rewrite count_nl_post_pass.
  rewrite <- (count_nl_scan_from s normal).
  pose proof (count_nl_le_lines (scan_from normal s)) as Hlow.
  split; [lia|]. split.
  { intros H.
    pose proof (lines_le_count_nl (scan_from normal s)
                  (forallb_scan_from _ s normal H)) as Hup.
    lia. }
  split; [exact Hlen|].
  split; [congruence|]. split.
  - intros j Hj Hc. destruct (nth j mask true) eqn:M; [reflexivity|].
    destruct (Hdrop j Hj M) as (p & Hp & _ & Hfree).
    exfalso. apply (Hfree j); [lia | exact Hc].
  - apply splitlines_post_pass.
Qed.

Lemma newline_count_preserved_witness :
  exists out,
    strip_comments (chars "a // b" ++ [ch_nl] ++ chars "c") = Some out /\
    count_nl out <= 1 + 1.
Proof.
  destruct (newline_count_preserved (chars "a // b" ++ [ch_nl] ++ chars "c"))
    as (scanned & out & mask & _ & E & _ & U & _).
  exists out. split; [exact E|].
  exact (U eq_refl).
Defined.

(** The claim as the specification states it fails on an input with form
    feeds, which [splitlines] takes for line boundaries: no newline goes
    in, three come out. *)
Lemma newline_count_changes_by_three :
  let input := chars "a" ++ [ch_ff] ++ chars "b" ++ [ch_ff] ++ chars "c" in
  let out := chars "a" ++ [ch_nl] ++ chars "b" ++ [ch_nl] ++ chars "c" ++
             [ch_nl] in
  strip_comments input = Some out /\
  count_nl input = 0 /\ count_nl out = 3.
Proof. cbv zeta. repeat split; vm_compute; reflexivity. Qed.

(** ** The driver *)

Section DriverProperties.

Variable path_text : string -> string.
Variable backup_of : string -> option string.
Variable decode : list byte -> option str.
Variable encode : str -> list byte.

(** C9: without a path argument the script prints the usage line and
    exits with status 1; with a path that does not exist it prints a line
    naming the path and exits with status 2.  In both cases nothing else
    is printed (no backup is announced) and the file system is left as it
    was. *)
Theorem driver_rejects_before_touching_files
        (argv : list string) (fs : filesystem) :
  (length argv < 2 ->
   main path_text backup_of decode encode argv fs =
     {| printed := ["Usage: strip_comments.py <file>"%string];
        ended := Exit 1; files := fs |}) /\
  (2 <= length argv ->
   fs (path_text (nth 1 argv EmptyString)) = None ->
   main path_text backup_of decode encode argv fs =
     {| printed :=
          [("File not found: " ++ path_text (nth 1 argv EmptyString))%string];
        ended := Exit 2; files := fs |}).
Proof.
  unfold main. split.
  - intros H. apply Nat.ltb_lt in H. rewrite H. reflexivity.
  - intros H Hmiss. apply Nat.ltb_ge in H. rewrite H, Hmiss. reflexivity.
Qed.

End DriverProperties.

Lemma driver_rejects_before_touching_files_witness :
  let fs : filesystem := fun _ => None in
  main (fun a => a) (fun p => Some (p ++ ".bak")%string)
       (fun _ => None) (fun _ => [])
       ["strip_comments.py"%string; "main.rs"%string] fs =
  {| printed := ["File not found: main.rs"%string];
     ended := Exit 2; files := fs |}.
Proof.
  cbv zeta.
  apply (proj2 (driver_rejects_before_touching_files
                  (fun a => a) (fun p => Some (p ++ ".bak")%string)
                  (fun _ => None) (fun _ => [])
                  ["strip_comments.py"%string; "main.rs"%string]
                  (fun _ => None))).
  - simpl; lia.
  - reflexivity.
Defined.

(** ** Inputs without line comments *)

Ltac unfold_free := rewrite comment_free_from_cons; cbv beta match.

(** Where no line comment is met the scan returns its input. *)
Lemma scan_from_comment_free (s : str) :
  forall st, comment_free_from st s = true -> scan_from st s = s.
Proof.
  induction s as [s IH] using (induction_ltof1 _ (@length char)).
  unfold ltof in IH. intros st.
  destruct s as [|c [|d r]]; [destruct st; reflexivity | | ];
    destruct st; unfold_scan; unfold_free; split_ifs;
    try discriminate; try reflexivity;
    intros H; rewrite IH by (simpl; auto; lia); reflexivity.
Qed.

(** Scanning from the normal state a text that begins with a character
    other than the slash appends that character first. *)
Lemma scan_from_normal_head (c : char) (r : str) :
  N.eqb c ch_slash = false ->
  exists t, scan_from normal (c :: r) = c :: t.
Proof.
  intros Hc. unfold_scan. rewrite Hc. cbn [andb].
  destruct r; split_ifs; eauto.
Qed.

Lemma scan_from_block_head (c : char) (r : str) :
  exists t, scan_from block_comment (c :: r) = c :: t.
Proof.
  unfold_scan. destruct r; split_ifs; eauto.
Qed.

Ltac step_free HY :=
  unfold_free; eval_tests; cbn [andb];
  repeat match goal with
         | H : N.eqb _ _ = _ |- _ => rewrite H
         end;
  cbn [andb]; first [ exact HY | reflexivity ].

(** A character in front of what a scan appends: the test of the second
    scan on that character is decided by the character alone. *)
Ltac close_on IH1 :=
  match goal with
  | |- comment_free_from _ (_ :: scan_from ?st' ?y) = true =>
      let HY := fresh "HY" in
      pose proof (IH1 st') as HY; cbn [resume] in HY;
      destruct (scan_from st' y); step_free HY
  end.

(** What the scan pass returns has no line comment left. *)
Lemma scan_from_leaves_no_comment (s : str) :
  forall st, comment_free_from (resume st) (scan_from st s) = true.
Proof.
  induction s as [s IH] using (induction_ltof1 _ (@length char)).
  unfold ltof in IH. intros st.
  destruct s as [|c [|d r]].
  - destruct st; reflexivity.
  - destruct st; unfold_scan; split_ifs; reflexivity.
  - assert (IH1 : forall st', comment_free_from (resume st')
                                (scan_from st' (d :: r)) = true)
      by (intros; apply IH; simpl; lia).
    assert (IH2 : forall st', comment_free_from (resume st')
                                (scan_from st' r) = true)
      by (intros; apply IH; simpl; lia).
    clear IH.
    destruct st; unfold_scan; cbn [resume]; split_ifs; bool_facts; subst.
    + apply (IH2 line_comment).
    + unfold_free. eval_tests. cbv beta match. apply (IH2 block_comment).
    + close_on IH1.
    + close_on IH1.
    + destruct (N.eqb c ch_slash) eqn:Cs; cbn [andb] in *.
      * destruct (scan_from_normal_head d r Heqb) as (t & Et).
        pose proof (IH1 normal) as HY. rewrite Et in *.
        step_free HY.
      * close_on IH1.
    + close_on IH1.
    + apply (IH1 line_comment).
    + unfold_free. eval_tests. cbv beta match. apply (IH2 normal).
    + destruct (scan_from_block_head d r) as (t & Et).
      pose proof (IH1 block_comment) as HY. rewrite Et in *.
      unfold_free. rewrite Heqb. exact HY.
    + unfold_free. eval_tests. cbv beta match. apply (IH2 string_lit).
    + close_on IH1.
    + close_on IH1.
    + unfold_free. eval_tests. cbv beta match. apply (IH2 char_lit).
    + close_on IH1.
    + close_on IH1.
Qed.

(** ** The scanner as an automaton on single characters *)

Lemma if_andb {A : Type} (a b : bool) (x y : A) :
  (if a && b then x else y) = (if a then if b then x else y else y).
Proof. destruct a, b; reflexivity. Qed.

(** Tests already decided in the context are rewritten. *)
Ltac use_tests :=
  repeat match goal with
         | H : N.eqb ?a ?b = _ |- context [N.eqb ?a ?b] => rewrite H
         end;
  cbv beta match.

(** Case analysis on every test of a character against a constant, as
    the tests come up. *)
Ltac split_tests :=
  cbn [lex_run lex_step lex_of lex_ok]; eval_tests; use_tests;
  repeat (match goal with
          | |- context [if N.eqb ?a ?b then _ else _] =>
              let E := fresh "E" in
              destruct (N.eqb a b) eqn:E;
              [ apply N.eqb_eq in E; subst | ]
          end;
          cbn [lex_run lex_step lex_of lex_ok]; eval_tests; use_tests).

Lemma lex_run_comment (s : str) : lex_run Lcomment s = Lcomment.
Proof. induction s; simpl; auto. Qed.

(** [comment_free_from] is acceptance by the automaton. *)
Lemma comment_free_lex (s : str) :
  forall st, st <> line_comment ->
             comment_free_from st s = lex_ok (lex_run (lex_of st) s).
Proof.
  induction s as [s IH] using (induction_ltof1 _ (@length char)).
  unfold ltof in IH. intros st Hst.
  destruct s as [|c [|d r]].
  - destruct st; try contradiction; reflexivity.
  - destruct st; try contradiction; unfold_free;
      split_tests; reflexivity.
  - assert (IH1 : forall st', st' <> line_comment ->
              comment_free_from st' (d :: r) =
              lex_ok (lex_run (lex_step (lex_of st') d) r))
      by (intros; apply (IH (d :: r)); simpl; auto).
    assert (IH2 : forall st', st' <> line_comment ->
              comment_free_from st' r = lex_ok (lex_run (lex_of st') r))
      by (intros; apply IH; simpl; auto).
    clear IH.
    destruct st; try contradiction; unfold_free;
      rewrite ?IH1, ?IH2 by discriminate;
      rewrite ?if_andb; split_tests;
      rewrite ?lex_run_comment; reflexivity.
Qed.

Lemma space_is_plain (c : char) :
  is_space c = true ->
  N.eqb c ch_slash = false /\ N.eqb c ch_star = false /\
  N.eqb c ch_dquote = false /\ N.eqb c ch_squote = false /\
  N.eqb c ch_backslash = false.
Proof.
  intros H.
  repeat split;
    match goal with
    | |- N.eqb c ?k = false =>
        destruct (N.eqb_spec c k) as [->|_]; [discriminate H | reflexivity]
    end.
Qed.

Lemma lex_step_space (q : lex_state) (c : char) :
  is_space c = true -> lex_step q c = blank q.
Proof.
  intros H. destruct (space_is_plain c H) as (A & B & C & D & E).
  destruct q; cbn [lex_step]; rewrite ?A, ?B, ?C, ?D, ?E; reflexivity.
Qed.

Lemma blank_idem (q : lex_state) : blank (blank q) = blank q.
Proof. destruct q; reflexivity. Qed.

Lemma lex_ok_blank (q : lex_state) : lex_ok (blank q) = lex_ok q.
Proof. destruct q; reflexivity. Qed.

(** Reading the stripped and re-joined lines of [s] leaves the automaton
    where reading [s] and one more whitespace character would. *)
Lemma lex_run_render (s : str) :
  forall q,
    lex_run q (render (splitlines s)) =
    match s with
    | [] => q
    | _ :: _ => blank (lex_run q s)
    end.
Proof.
  induction s as [|c r B IH|c r B IH] using splitlines_ind; intros q.
  - reflexivity.
  - rewrite splitlines_cons, B.
    change (render ([] :: splitlines (after_break c r)))
      with (ch_nl :: render (splitlines (after_break c r))).
    cbn [lex_run]. rewrite IH.
    rewrite (lex_step_space q ch_nl eq_refl).
    rewrite (lex_step_space q c (linebreak_is_space c B)).
    unfold after_break. destruct r as [|d r'].
    + cbn [lex_run]. rewrite blank_idem. reflexivity.
    + destruct (N.eqb c ch_cr && N.eqb d ch_nl) eqn:E; [|reflexivity].
      bool_facts; subst. cbn [lex_run].
      rewrite (lex_step_space (blank q) ch_nl eq_refl), blank_idem.
      destruct r'; [cbn [lex_run]; rewrite blank_idem|]; reflexivity.
  - rewrite splitlines_cons, B.
    destruct (splitlines r) as [|ln lns] eqn:E.
    + apply splitlines_nil_inv in E. subst r.
      unfold render. cbn [flat_map rstrip app].
      destruct (is_space c) eqn:S; cbn [app lex_run].
      * rewrite (lex_step_space q c S), !(lex_step_space _ ch_nl eq_refl).
        rewrite blank_idem. reflexivity.
      * rewrite (lex_step_space _ ch_nl eq_refl). reflexivity.
    + assert (Hr : r <> []) by (intros ->; discriminate E).
      assert (IH' : forall q', lex_run q' (render (ln :: lns)) =
                               blank (lex_run q' r))
        by (intros q'; rewrite IH; destruct r; [contradiction|reflexivity]).
      clear IH.
      change (render (ln :: lns))
        with ((rstrip ln ++ [ch_nl]) ++ render lns) in IH'.
      change (render ((c :: ln) :: lns))
        with ((rstrip (c :: ln) ++ [ch_nl]) ++ render lns).
      cbn [rstrip lex_run].
      destruct (rstrip ln) as [|x ln'] eqn:El.
      * destruct (is_space c) eqn:S.
        -- rewrite (lex_step_space q c S), <- IH'.
           cbn [app lex_run].
           rewrite !(lex_step_space _ ch_nl eq_refl), blank_idem.
           reflexivity.
        -- rewrite <- IH'. reflexivity.
      * rewrite <- IH'. reflexivity.
Qed.

Lemma lex_run_post_pass (s : str) (q : lex_state) :
  lex_run q (post_pass s) = blank (lex_run q s).
Proof.
  rewrite post_pass_render.
  destruct (splitlines s) as [|ln lns] eqn:E.
  - apply splitlines_nil_inv in E. subst s.
    cbn [lex_run]. apply (lex_step_space q ch_nl eq_refl).
  - rewrite <- E, lex_run_render.
    destruct s; [discriminate E | reflexivity].
Qed.

(** The post-pass neither creates nor removes a line comment. *)
Lemma comment_free_post_pass (s : str) :
  comment_free_from normal (post_pass s) = comment_free_from normal s.
Proof.
  rewrite !comment_free_lex by discriminate.
  rewrite lex_run_post_pass. apply lex_ok_blank.
Qed.

(** ** Never entering the line-comment state *)

Lemma step_comment_free (s : str) (cf : config) :
  i cf < length s ->
  state cf <> line_comment ->
  comment_free_from (state cf) (skipn (i cf) s) =
  if scan_state_eqb (state (step s cf)) line_comment then false
  else comment_free_from (state (step s cf)) (skipn (i (step s cf)) s).
Proof.
  intros Hlt Hst. destruct cf as [st k out]; simpl in *.
  destruct (skipn_nonempty s k Hlt) as (c & r & E).
  destruct (skipn_cons_inv E) as (Hc & _ & Hr).
  assert (Hlen : forall d r', r = d :: r' -> skipn (k + 2) s = r').
  { intros d r' ->. destruct (skipn_cons_inv Hr) as (_ & _ & C).
    replace (k + 2) with (k + 1 + 1) by lia. exact C. }
  unfold step; cbn [state i out_chars]. rewrite Hc. clear Hc.
  rewrite !(startswith_two _ _ E), (next_exists E), E.
  destruct st; try contradiction; unfold_free;
    (destruct r as [|d r']; [ | pose proof (Hlen d r' eq_refl) as Hr' ]);
    clear Hlen; cbv beta match; rewrite ?andb_true_r, ?andb_false_r;
    repeat match goal with
           | |- context [if ?b then _ else _] =>
               match b with
               | N.eqb _ _ => destruct b eqn:?
               | andb _ _ => destruct b eqn:?
               end;
               cbn [state i out_chars scan_state_eqb]
           end;
    cbn [state i out_chars scan_state_eqb];
    rewrite ?Hr, ?Hr'; reflexivity.
Qed.

Lemma reachable_comment_free (s : str) (cf : config) :
  comment_free_from normal s = true ->
  reachable s cf ->
  state cf <> line_comment /\
  comment_free_from (state cf) (skipn (i cf) s) = true.
Proof.
  intros Hfree. induction 1 as [|cf R [Hst Hcf] Hlt].
  - split; [discriminate | exact Hfree].
  - rewrite (step_comment_free s cf Hlt Hst) in Hcf.
    destruct (state (step s cf)); simpl in Hcf; try discriminate;
      split; auto; discriminate.
Qed.

Lemma comment_reached (s : str) (n : nat) :
  forall cf,
    length s - i cf <= n ->
    reachable s cf ->
    state cf <> line_comment ->
    comment_free_from (state cf) (skipn (i cf) s) = false ->
    exists cf', reachable s cf' /\ state cf' = line_comment.
Proof.
  induction n as [|n IH]; intros cf Hn R Hst Hcf.
  - pose proof (reachable_in_bounds s cf R) as Hle.
    replace (i cf) with (length s) in Hcf by lia.
    rewrite skipn_all in Hcf. destruct (state cf); discriminate.
  - destruct (Nat.lt_ge_cases (i cf) (length s)) as [Hlt | Hge].
    + rewrite (step_comment_free s cf Hlt Hst) in Hcf.
      pose proof (reach_step s cf R Hlt) as R'.
      destruct (step_scan_from s cf Hlt) as (_ & Hadv & _).
      destruct (state (step s cf)) eqn:Es; simpl in Hcf;
        try (exists (step s cf); split; [exact R' | exact Es]);
        apply (IH (step s cf)); auto; try lia; rewrite Es; auto;
        discriminate.
    + rewrite skipn_all2 in Hcf by exact Hge.
      destruct (state cf); discriminate.
Qed.

(** The loop never assigns the line-comment state exactly when the
    recursive check finds no line comment. *)
Lemma never_line_comment_iff (s : str) :
  never_line_comment s <-> comment_free_from normal s = true.
Proof.
  split.
  - intros H. destruct (comment_free_from normal s) eqn:E; auto.
    destruct (comment_reached s (length s) init)
      as (cf & R & Hst); simpl; auto; try lia; try discriminate;
      try apply reach_init.
    exfalso. exact (H cf R Hst).
  - intros H cf R. apply (reachable_comment_free s cf H R).
Qed.

(** C7: on an input without line comments the written text is the
    post-pass of the input itself: it ends with a newline and its lines
    are the lines of the input, each without its trailing whitespace.
    And whatever the input, running the transformation on its own result
    gives that result back. *)
Theorem comment_free_input_and_idempotence (s : str) :
  (never_line_comment s ->
   exists out,
     strip_comments s = Some out /\
     out = post_pass s /\
     ends_with out [ch_nl] = true /\
     (s <> [] -> splitlines out = map rstrip (splitlines s))) /\
  (exists out, strip_comments s = Some out /\ strip_comments out = Some out).
Proof.
  split.
  - intros H. apply never_line_comment_iff in H.
    exists (post_pass s). repeat split.
    + rewrite strip_comments_total, (scan_from_comment_free s normal H).
      reflexivity.
    + apply ends_with_spec. eexists; reflexivity.
    + apply splitlines_post_pass.
  - exists (post_pass (scan_from normal s)).
    split; [apply strip_comments_total|].
    rewrite strip_comments_total. f_equal.
    rewrite scan_from_comment_free.
    + apply post_pass_idem.
    + rewrite comment_free_post_pass.
      apply (scan_from_leaves_no_comment s normal).
Qed.

Lemma comment_free_input_and_idempotence_witness :
  exists out,
    strip_comments (chars "a = '/' ;  ") = Some out /\
    out = chars "a = '/' ;" ++ [ch_nl].
Proof.
  destruct (proj1 (comment_free_input_and_idempotence (chars "a = '/' ;  ")))
    as (out & E & P & _).
  - apply never_line_comment_iff. vm_compute. reflexivity.
  - exists out. split; [exact E|]. rewrite P. vm_compute. reflexivity.
Defined.

(** The claim as the specification states it fails on an input without
    line comments that ends with an empty line: the written text is the
    input itself and has two trailing newlines, not exactly one. *)
Lemma comment_free_input_keeps_two_newlines :
  never_line_comment (chars "a" ++ [ch_nl; ch_nl]) /\
  strip_comments (chars "a" ++ [ch_nl; ch_nl]) =
    Some (chars "a" ++ [ch_nl; ch_nl]) /\
  ends_with (chars "a" ++ [ch_nl; ch_nl]) [ch_nl; ch_nl] = true.
Proof.
  split; [apply never_line_comment_iff|split]; vm_compute; reflexivity.
Qed.

(** * Further properties of the script *)

(** ** Literals and block comments under the loop *)

Lemma loop_from (s : str) (cf : config) (fuel : nat) {c : char} {r : str} :
  skipn (i cf) s = c :: r ->
  length s <= fuel ->
  exists cf',
    loop fuel s cf = Some cf' /\
    joined cf' = joined cf ++ scan_from (state cf) (c :: r).
Proof.
  intros E Hfuel. destruct (skipn_cons_inv E) as (_ & Hlt & _).
  destruct (loop_scan_from fuel s cf) as (cf' & A & _ & C); try lia.
  exists cf'. split; [exact A|]. rewrite C, E. reflexivity.
Qed.

(** A closed string or character literal met in the normal state, at
    any position of the input, is appended as it is, whatever it contains
    (two slashes, a block-comment opener, escaped delimiters); behind it
    the loop appends what the scan pass makes of the rest. *)
Theorem loop_keeps_closed_literal
        (s : str) (cf : config) (q : char) (b rest : str) (fuel : nat) :
  state cf = normal ->
  q = ch_dquote \/ q = ch_squote ->
  literal_body q b = true ->
  skipn (i cf) s = q :: b ++ q :: rest ->
  length s <= fuel ->
  exists cf' t,
    loop fuel s cf = Some cf' /\
    scan_pass rest = Some t /\
    joined cf' = joined cf ++ q :: b ++ q :: t.
Proof.
  intros Hst Hq Hb E Hfuel.
  destruct (loop_from s cf fuel E Hfuel) as (cf' & A & C).
  exists cf', (scan_from normal rest).
  split; [exact A|]. split; [apply scan_pass_total|].
  rewrite C, Hst.
  destruct (scan_keeps_literals_and_blocks b rest) as (Hs & Hc & _).
  destruct Hq as [-> | ->]; [rewrite (Hs Hb) | rewrite (Hc Hb)]; reflexivity.
Qed.

Lemma loop_keeps_closed_literal_witness :
  exists cf' t,
    loop 20 (chars "a = 'x//'; // c")
         {| state := normal; i := 4; out_chars := [chars "a = "] |} =
      Some cf' /\
    scan_pass (chars "; // c") = Some t /\
    joined cf' = chars "a = " ++ ch_squote :: chars "x//" ++ ch_squote :: t.
Proof.
  apply (loop_keeps_closed_literal
           (chars "a = 'x//'; // c")
           {| state := normal; i := 4; out_chars := [chars "a = "] |}
           ch_squote (chars "x//") (chars "; // c") 20).
  - reflexivity.
  - right; reflexivity.
  - reflexivity.
  - reflexivity.
  - simpl; lia.
Defined.

(** A closed block comment met in the normal state, at any position of
    the input, is appended as it is, with both delimiters; an opener
    inside it does not nest, the first closer ends it. *)
Theorem loop_keeps_closed_block_comment
        (s : str) (cf : config) (b rest : str) (fuel : nat) :
  state cf = normal ->
  block_body b = true ->
  skipn (i cf) s = ch_slash :: ch_star :: b ++ ch_star :: ch_slash :: rest ->
  length s <= fuel ->
  exists cf' t,
    loop fuel s cf = Some cf' /\
    scan_pass rest = Some t /\
    joined cf' =
      joined cf ++ ch_slash :: ch_star :: b ++ ch_star :: ch_slash :: t.
Proof.
  intros Hst Hb E Hfuel.
  destruct (loop_from s cf fuel E Hfuel) as (cf' & A & C).
  exists cf', (scan_from normal rest).
  split; [exact A|]. split; [apply scan_pass_total|].
  rewrite C, Hst.
  destruct (scan_keeps_literals_and_blocks b rest) as (_ & _ & Hk).
  rewrite (Hk Hb). reflexivity.
Qed.

Lemma loop_keeps_closed_block_comment_witness :
  exists cf' t,
    loop 20 (chars "/* /* // */ x // y") init = Some cf' /\
    scan_pass (chars " x // y") = Some t /\
    joined cf' = chars "/*" ++ chars " /* // " ++ chars "*/" ++ t.
Proof.
  apply (loop_keeps_closed_block_comment
           (chars "/* /* // */ x // y") init
           (chars " /* // ") (chars " x // y") 20).
  - reflexivity.
  - reflexivity.
  - reflexivity.
  - simpl; lia.
Defined.

(** ** Regions that are never closed *)

Lemma scan_unclosed_block (u : str) :
  block_body u = true -> scan_from block_comment u = u.
Proof.
  induction u as [|c u IH]; intros H; [reflexivity|].
  cbn [block_body] in H. apply andb_true_iff in H as [Hc Hu].
  apply negb_true_iff in Hc. unfold_scan.
  destruct u as [|d u']; [reflexivity|].
  rewrite Hc, (IH Hu). reflexivity.
Qed.

Lemma scan_unclosed_literal (u : str) :
  forall st q,
    (st = string_lit /\ q = ch_dquote) \/ (st = char_lit /\ q = ch_squote) ->
    no_closing q u = true -> scan_from st u = u.
Proof.
  induction u as [u IH] using (induction_ltof1 _ (@length char)).
  unfold ltof in IH. intros st q Hq H.
  destruct u as [|c [|d u']].
  - destruct st; reflexivity.
  - destruct Hq as [[-> ->] | [-> ->]]; reflexivity.
  - cbn [no_closing] in H.
    destruct Hq as [[-> ->] | [-> ->]]; unfold_scan;
      destruct (N.eqb c ch_backslash);
      try (rewrite (IH u') with (q := ch_dquote) by (simpl; auto; lia));
      try (rewrite (IH u') with (q := ch_squote) by (simpl; auto; lia));
      try reflexivity;
      apply andb_true_iff in H as [Hc Hu]; apply negb_true_iff in Hc;
      rewrite Hc;
      [ rewrite (IH (d :: u')) with (q := ch_dquote) by (simpl; auto; lia)
      | rewrite (IH (d :: u')) with (q := ch_squote) by (simpl; auto; lia) ];
      reflexivity.
Qed.

(** A block comment that is opened in the normal state and never closed
    takes the rest of the input with it: everything from the opener to
    the end is appended as it is, so no line comment behind the opener is
    removed. *)
Theorem loop_keeps_unclosed_block_comment
        (s : str) (cf : config) (u : str) (fuel : nat) :
  state cf = normal ->
  block_body u = true ->
  skipn (i cf) s = ch_slash :: ch_star :: u ->
  length s <= fuel ->
  exists cf',
    loop fuel s cf = Some cf' /\
    joined cf' = joined cf ++ ch_slash :: ch_star :: u.
Proof.
  intros Hst Hu E Hfuel.
  destruct (loop_from s cf fuel E Hfuel) as (cf' & A & C).
  exists cf'. split; [exact A|].
  rewrite C, Hst. unfold_scan. eval_tests. cbv beta match.
  rewrite (scan_unclosed_block u Hu). reflexivity.
Qed.

Lemma loop_keeps_unclosed_block_comment_witness :
  exists cf',
    loop 20 (chars "x /* y // z") 
         {| state := normal; i := 2; out_chars := [chars "x "] |} =
      Some cf' /\
    joined cf' = chars "x " ++ chars "/* y // z".
Proof.
  apply (loop_keeps_unclosed_block_comment
           (chars "x /* y // z")
           {| state := normal; i := 2; out_chars := [chars "x "] |}
           (chars " y // z") 20).
  - reflexivity.
  - reflexivity.
  - reflexivity.
  - simpl; lia.
Defined.

(** A string or character literal that is opened in the normal state
    and never closed takes the rest of the input with it, also when the
    input ends with a backslash that has no character to escape. *)
Theorem loop_keeps_unclosed_literal
        (s : str) (cf : config) (q : char) (u : str) (fuel : nat) :
  state cf = normal ->
  q = ch_dquote \/ q = ch_squote ->
  no_closing q u = true ->
  skipn (i cf) s = q :: u ->
  length s <= fuel ->
  exists cf',
    loop fuel s cf = Some cf' /\ joined cf' = joined cf ++ q :: u.
Proof.
  intros Hst Hq Hu E Hfuel.
  destruct (loop_from s cf fuel E Hfuel) as (cf' & A & C).
  exists cf'. split; [exact A|].
  rewrite C, Hst. f_equal.
  destruct Hq as [-> | ->]; unfold_scan; eval_tests; cbn [andb];
    (destruct u as [|d u']; [reflexivity|]); cbv beta match.
  - rewrite (scan_unclosed_literal (d :: u') string_lit ch_dquote);
      auto.
  - rewrite (scan_unclosed_literal (d :: u') char_lit ch_squote);
      auto.
Qed.

Lemma loop_keeps_unclosed_literal_witness :
  exists cf',
    loop 20 (ch_dquote :: chars "a // b\") init = Some cf' /\
    joined cf' = ch_dquote :: chars "a // b\".
Proof.
  apply (loop_keeps_unclosed_literal
           (ch_dquote :: chars "a // b\") init ch_dquote
           (chars "a // b\") 20).
  - reflexivity.
  - left; reflexivity.
  - reflexivity.
  - reflexivity.
  - simpl; lia.
Defined.

(** ** When the scan pass changes the text *)

Lemma length_scan_from_le (s : str) :
  forall st, length (scan_from st s) <= length s.
Proof.
  induction s as [s IH] using (induction_ltof1 _ (@length char)).
  unfold ltof in IH. intros st.
  destruct s as [|c [|d r]]; [destruct st; simpl; lia | | ].
  - destruct st; unfold_scan; split_ifs; simpl; lia.
  - assert (IH1 : forall st', length (scan_from st' (d :: r)) <= S (length r))
      by (intros; apply (IH (d :: r)); simpl; lia).
    assert (IH2 : forall st', length (scan_from st' r) <= length r)
      by (intros; apply IH; simpl; lia).
    destruct st; unfold_scan; split_ifs; cbn [length];
      repeat match goal with
             | |- context [scan_from ?st' (d :: r)] =>
                 pose proof (IH1 st'); generalize dependent (scan_from st' (d :: r)); intros
             | |- context [scan_from ?st' r] =>
                 pose proof (IH2 st'); generalize dependent (scan_from st' r); intros
             end; lia.
Qed.

Lemma length_scan_from_lt (s : str) :
  forall st, st <> line_comment ->
             comment_free_from st s = false ->
             length (scan_from st s) < length s.
Proof.
  induction s as [s IH] using (induction_ltof1 _ (@length char)).
  unfold ltof in IH. intros st Hst.
  destruct s as [|c [|d r]].
  - destruct st; discriminate.
  - destruct st; try contradiction; unfold_free; discriminate.
  - assert (IH1 : forall st', st' <> line_comment ->
              comment_free_from st' (d :: r) = false ->
              length (scan_from st' (d :: r)) < S (length r))
      by (intros; apply (IH (d :: r)); simpl; auto).
    assert (IH2 : forall st', st' <> line_comment ->
              comment_free_from st' r = false ->
              length (scan_from st' r) < length r)
      by (intros; apply IH; simpl; auto).
    pose proof (length_scan_from_le r line_comment) as Hle.
    destruct st; try contradiction; unfold_scan; unfold_free; split_ifs;
      intros H; cbn [length];
      try match type of H with
          | comment_free_from ?st' (d :: r) = false =>
              pose proof (IH1 st' ltac:(discriminate) H)
          | comment_free_from ?st' r = false =>
              pose proof (IH2 st' ltac:(discriminate) H)
          end;
      lia.
Qed.

(** The scan pass returns its input unchanged exactly when the loop
    never enters the line-comment state on it; in any case the result is
    not longer than the input. *)
Theorem scan_pass_changes_iff_comment (s : str) :
  (scan_pass s = Some s <-> never_line_comment s) /\
  (exists t, scan_pass s = Some t /\ length t <= length s).
Proof.
  rewrite scan_pass_total, never_line_comment_iff. split.
  - split.
    + intros H. destruct (comment_free_from normal s) eqn:E; auto.
      pose proof (length_scan_from_lt s normal ltac:(discriminate) E) as L.
      inversion H as [H']. rewrite H' in L. lia.
    + intros H. rewrite (scan_from_comment_free s normal H). reflexivity.
  - exists (scan_from normal s). split; [reflexivity|].
    apply length_scan_from_le.
Qed.

(** The scan pass leaves no line comment behind: run on its own result
    it returns that result. *)
Theorem scan_pass_idempotent (s : str) :
  exists t, scan_pass s = Some t /\ scan_pass t = Some t.
Proof.
  exists (scan_from normal s). split; [apply scan_pass_total|].
  rewrite scan_pass_total. f_equal.
  apply scan_from_comment_free.
  apply (scan_from_leaves_no_comment s normal).
Qed.

(** ** What the post-pass guarantees about the written text *)

Lemma rstrip_last (ln : str) :
  rstrip ln <> [] -> is_space (last (rstrip ln) 0%N) = false.
Proof.
  induction ln as [|c r IH]; intros H; [contradiction|].
  cbn [rstrip] in *. destruct (rstrip r) as [|x r'] eqn:E.
  - destruct (is_space c) eqn:S; [contradiction|]. exact S.
  - change (last (c :: x :: r') 0%N) with (last (x :: r') 0%N).
    apply IH. discriminate.
Qed.

(** No line of the written text ends in whitespace: stripping a line
    again changes nothing, and the last character of a line that is not
    empty is not a whitespace character. *)
Theorem written_lines_have_no_trailing_space (s : str) :
  exists out,
    strip_comments s = Some out /\
    forall ln, In ln (splitlines out) ->
               rstrip ln = ln /\
               (ln <> [] -> is_space (last ln 0%N) = false).
Proof.
  exists (post_pass (scan_from normal s)).
  split; [apply strip_comments_total|].
  set (x := scan_from normal s). intros ln Hin.
  assert (Hln : exists l0, ln = rstrip l0).
  { destruct x as [|c r] eqn:Ex.
    - vm_compute in Hin. destruct Hin as [<- | []]. exists []. reflexivity.
    - rewrite splitlines_post_pass in Hin by discriminate.
      apply in_map_iff in Hin as (l0 & <- & _). exists l0. reflexivity. }
  destruct Hln as (l0 & ->). split.
  - apply rstrip_idem.
  - apply rstrip_last.
Qed.

Lemma only_nl_breaks_render (lines : list str) :
  Forall (fun ln => no_break ln = true) lines ->
  only_nl_breaks (render lines) = true.
Proof.
  unfold only_nl_breaks, render.
  induction 1 as [|ln rest Hln _ IH]; [reflexivity|].
  cbn [flat_map]. rewrite !forallb_app, IH.
  apply (rstrip_forallb _ ln) in Hln. unfold no_break in Hln.
  rewrite andb_true_r. apply andb_true_iff. split; [|reflexivity].
  rewrite forallb_forall in *. intros c Hc.
  rewrite (Hln c Hc). reflexivity.
Qed.

(** The only line boundary left in the written text is the newline:
    carriage returns, form feeds and the other boundaries at which
    [splitlines] cuts are replaced by newlines. *)
Theorem written_text_has_only_newline_breaks (s : str) :
  exists out, strip_comments s = Some out /\ only_nl_breaks out = true.
Proof.
  exists (post_pass (scan_from normal s)).
  split; [apply strip_comments_total|].
  rewrite post_pass_render.
  pose proof (splitlines_no_break (scan_from normal s)) as H.
  destruct (splitlines (scan_from normal s)); [reflexivity|].
  apply only_nl_breaks_render. exact H.
Qed.

Lemma non_space_app (a b : str) :
  non_space (a ++ b) = non_space a ++ non_space b.
Proof. unfold non_space. apply filter_app. Qed.

Lemma non_space_cons (c : char) (s : str) :
  non_space (c :: s) = (if is_space c then [] else [c]) ++ non_space s.
Proof. unfold non_space. simpl. destruct (is_space c); reflexivity. Qed.

Lemma non_space_blank (w : str) :
  forallb is_space w = true -> non_space w = [].
Proof.
  induction w as [|c w IH]; intros H; [reflexivity|].
  cbn [forallb] in H. apply andb_true_iff in H as [Hc Hw].
  rewrite non_space_cons, Hc, (IH Hw). reflexivity.
Qed.

Lemma non_space_rstrip (ln : str) : non_space (rstrip ln) = non_space ln.
Proof.
  destruct (rstrip_split ln) as (w & E & W).
  rewrite E at 2. rewrite non_space_app, (non_space_blank w W), app_nil_r.
  reflexivity.
Qed.

Lemma non_space_render (s : str) :
  non_space (render (splitlines s)) = non_space s.
Proof.
  induction s as [|c r B IH|c r B IH] using splitlines_ind.
  - reflexivity.
  - rewrite splitlines_cons, B.
    change (render ([] :: splitlines (after_break c r)))
      with (ch_nl :: render (splitlines (after_break c r))).
    rewrite !non_space_cons, IH, (linebreak_is_space c B).
    replace (is_space ch_nl) with true by reflexivity. cbn [app].
    unfold after_break. destruct r as [|d r']; [reflexivity|].
    destruct (N.eqb c ch_cr && N.eqb d ch_nl) eqn:E; [|reflexivity].
    bool_facts; subst. rewrite (non_space_cons ch_nl).
    replace (is_space ch_nl) with true by reflexivity. reflexivity.
  - rewrite splitlines_cons, B.
    destruct (splitlines r) as [|ln lns] eqn:E.
    + apply splitlines_nil_inv in E. subst r.
      change (render [[c]]) with ((rstrip [c] ++ [ch_nl]) ++ []).
      rewrite app_nil_r, non_space_app, non_space_rstrip.
      change (non_space [ch_nl]) with (@nil char). apply app_nil_r.
    + change (render (ln :: lns))
        with ((rstrip ln ++ [ch_nl]) ++ render lns) in IH.
      change (render ((c :: ln) :: lns))
        with ((rstrip (c :: ln) ++ [ch_nl]) ++ render lns).
      rewrite <- app_assoc, non_space_app, non_space_rstrip in *.
      rewrite !non_space_cons, <- IH, <- app_assoc. reflexivity.
Qed.

(** The post-pass touches whitespace only: the characters of the
    written text that are not whitespace are those of the scanned text,
    in the same order. *)
Theorem post_pass_changes_only_whitespace (s : str) :
  exists scanned out,
    scan_pass s = Some scanned /\
    strip_comments s = Some out /\
    non_space out = non_space scanned.
Proof.
  exists (scan_from normal s), (post_pass (scan_from normal s)).
  split; [apply scan_pass_total|].
  split; [apply strip_comments_total|].
  rewrite post_pass_render.
  destruct (splitlines (scan_from normal s)) as [|ln lns] eqn:E.
  - apply splitlines_nil_inv in E. rewrite E. reflexivity.
  - rewrite <- E. apply non_space_render.
Qed.

(** ** The driver on an existing path *)

Lemma write_file_same (fs : filesystem) (p : string) (data : list byte) :
  write_file fs p data p = Some (File data).
Proof. unfold write_file. rewrite String.eqb_refl. reflexivity. Qed.

Lemma write_file_other (fs : filesystem) (p q : string) (data : list byte) :
  q <> p -> write_file fs p data q = fs q.
Proof.
  intros H. unfold write_file.
  destruct (String.eqb_spec q p); [contradiction | reflexivity].
Qed.

(** What the transformation returns is a fixed point of it. *)
Lemma strip_comments_result_fixed (s out : str) :
  strip_comments s = Some out -> strip_comments out = Some out.
Proof.
  rewrite strip_comments_total. intros H. inversion H; subst; clear H.
  rewrite strip_comments_total. f_equal.
  rewrite scan_from_comment_free.
  - apply post_pass_idem.
  - rewrite comment_free_post_pass.
    apply (scan_from_leaves_no_comment s normal).
Qed.

Section DriverRuns.

Variable path_text : string -> string.
Variable backup_of : string -> option string.
Variable decode : list byte -> option str.
Variable encode : str -> list byte.

Local Abbreviation run := (main path_text backup_of decode encode).

Lemma run_on_file
        (argv : list string) (fs : filesystem)
        (b : string) (bytes : list byte) (s : str) :
  let p := path_text (nth 1 argv EmptyString) in
  2 <= length argv ->
  fs p = Some (File bytes) ->
  backup_of p = Some b ->
  b <> p ->
  fs b <> Some Dir ->
  decode bytes = Some s ->
  exists new_s,
    strip_comments s = Some new_s /\
    printed (run argv fs) =
      [("Creating backup: " ++ b)%string;
       ("Writing cleaned file: " ++ p)%string; "Done."%string] /\
    ended (run argv fs) = Exit 0 /\
    files (run argv fs) b = Some (File bytes) /\
    files (run argv fs) p = Some (File (encode new_s)) /\
    forall q, q <> p -> q <> b -> files (run argv fs) q = fs q.
Proof.
  intros p Hargv Hp Hb Hne Hdir Hdec.
  exists (post_pass (scan_from normal s)).
  split; [apply strip_comments_total|].
  assert (E : run argv fs =
    {| printed := [("Creating backup: " ++ b)%string;
                   ("Writing cleaned file: " ++ p)%string; "Done."%string];
       ended := Exit 0;
       files := write_file (write_file fs b bytes) p
                  (encode (post_pass (scan_from normal s))) |}).
  { unfold main. apply Nat.ltb_ge in Hargv. rewrite Hargv.
    fold p. rewrite Hp, Hb.
    assert (H1 : write_file fs b bytes p = Some (File bytes))
      by (rewrite write_file_other by auto; exact Hp).
    destruct (fs b) as [[|]|]; try contradiction;
      rewrite H1, Hdec, strip_comments_total; reflexivity. }
  rewrite E. cbn [printed ended files]. repeat split.
  - rewrite write_file_other by exact Hne. apply write_file_same.
  - apply write_file_same.
  - intros q Hq1 Hq2. rewrite !write_file_other by assumption. reflexivity.
Qed.

(** In a file system where reading a file and writing to a path that is
    not a directory succeed: on a path that names a file whose bytes
    decode to [s], the script announces the backup, the writing and the
    end, exits with status 0, leaves the original bytes in the backup
    file and the encoded transformed text in the file itself, and leaves
    every other path as it was. *)
Theorem driver_success
        (argv : list string) (fs : filesystem)
        (b : string) (bytes : list byte) (s : str) :
  let p := path_text (nth 1 argv EmptyString) in
  2 <= length argv ->
  fs p = Some (File bytes) ->
  backup_of p = Some b ->
  b <> p ->
  fs b <> Some Dir ->
  decode bytes = Some s ->
  exists new_s,
    strip_comments s = Some new_s /\
    printed (run argv fs) =
      [("Creating backup: " ++ b)%string;
       ("Writing cleaned file: " ++ p)%string; "Done."%string] /\
    ended (run argv fs) = Exit 0 /\
    files (run argv fs) b = Some (File bytes) /\
    files (run argv fs) p = Some (File (encode new_s)) /\
    forall q, q <> p -> q <> b -> files (run argv fs) q = fs q.
Proof. exact (run_on_file argv fs b bytes s). Qed.

(** Whatever the arguments and the file system, the file named on the
    command line is either left as it was, or the run ends with status 0
    and the backup file holds the bytes the file had before. *)
Theorem original_replaced_only_after_backup
        (argv : list string) (fs : filesystem) :
  let p := path_text (nth 1 argv EmptyString) in
  backup_of p <> Some p ->
  files (run argv fs) p = fs p \/
  (ended (run argv fs) = Exit 0 /\
   exists b bytes,
     backup_of p = Some b /\ fs p = Some (File bytes) /\
     files (run argv fs) b = Some (File bytes)).
Proof.
  intros p Hbp. unfold main.
  destruct (length argv <? 2); [left; reflexivity|]. fold p.
  destruct (fs p) as [[bytes|]|] eqn:Hp; try (left; exact Hp).
  - destruct (backup_of p) as [b|] eqn:Hb; [|left; exact Hp].
    assert (Hne : b <> p) by (intros ->; apply Hbp; reflexivity).
    assert (H1 : write_file fs b bytes p = Some (File bytes))
      by (rewrite write_file_other by auto; exact Hp).
    assert (Hkeep : forall d, write_file fs b d p = fs p)
      by (intros; apply write_file_other; auto).
    destruct (fs b) as [[|]|]; try (left; exact Hp);
      rewrite H1;
      (destruct (decode bytes) as [s|];
       [ rewrite strip_comments_total; right; cbn [ended files];
         split; [reflexivity|]; exists b, bytes; repeat split;
         rewrite write_file_other by exact Hne; apply write_file_same
       | left; cbn [files]; rewrite Hkeep; exact Hp ]).
  - destruct (backup_of p); left; exact Hp.
Qed.

(** The script writes to the file named on the command line and to its
    backup path only: every other path is left as it was, however the
    run ends. *)
Theorem driver_touches_two_paths_only
        (argv : list string) (fs : filesystem) (q : string) :
  let p := path_text (nth 1 argv EmptyString) in
  q <> p ->
  backup_of p <> Some q ->
  files (run argv fs) q = fs q.
Proof.
  intros p Hq Hb. unfold main.
  destruct (length argv <? 2); [reflexivity|]. fold p.
  destruct (fs p) as [nd|]; [|reflexivity].
  destruct (backup_of p) as [b|]; [|reflexivity].
  assert (Hne : q <> b) by (intros ->; apply Hb; reflexivity).
  destruct nd as [bytes|]; [|reflexivity].
  destruct (fs b) as [[|]|]; try reflexivity;
    (destruct (write_file fs b bytes p) as [[bytes1|]|];
     [ destruct (decode bytes1);
       [ rewrite strip_comments_total | ]
     | | ]);
    cbn [files]; rewrite ?write_file_other by assumption; reflexivity.
Qed.


(** Running the script a second time, on the file system the first run
    left, when the codec reads back what it wrote: the file keeps the
    transformed text, and the backup now holds that text too, so the
    bytes the file had before the first run are gone. *)
Theorem second_run_overwrites_backup
        (argv : list string) (fs : filesystem)
        (b : string) (bytes : list byte) (s new_s : str) :
  let p := path_text (nth 1 argv EmptyString) in
  2 <= length argv ->
  fs p = Some (File bytes) ->
  backup_of p = Some b ->
  b <> p ->
  fs b <> Some Dir ->
  decode bytes = Some s ->
  strip_comments s = Some new_s ->
  decode (encode new_s) = Some new_s ->
  let fs' := files (run argv fs) in
  ended (run argv fs') = Exit 0 /\
  files (run argv fs') p = Some (File (encode new_s)) /\
  files (run argv fs') b = Some (File (encode new_s)).
Proof.
  intros p Hargv Hp Hb Hne Hdir Hdec Hs Hrt fs'.
  destruct (run_on_file argv fs b bytes s Hargv Hp Hb Hne Hdir Hdec)
    as (n1 & Hn1 & _ & _ & Hb1 & Hp1 & _).
  assert (n1 = new_s) by congruence. subst n1.
  assert (Hdir' : fs' b <> Some Dir)
    by (unfold fs'; rewrite Hb1; discriminate).
  destruct (run_on_file argv fs' b (encode new_s) new_s
              Hargv Hp1 Hb Hne Hdir' Hrt)
    as (n2 & Hn2 & _ & He & Hb2 & Hp2 & _).
  rewrite (strip_comments_result_fixed s new_s Hs) in Hn2.
  inversion Hn2; subst n2.
  repeat split; assumption.
Qed.

End DriverRuns.

Lemma driver_success_witness :
  exists new_s,
    strip_comments (chars "x = 1; // one"%string) = Some new_s /\
    ended (main (fun a => a) demo_backup_of demo_decode demo_encode
                demo_argv demo_fs) = Exit 0 /\
    files (main (fun a => a) demo_backup_of demo_decode demo_encode
                demo_argv demo_fs) "main.rs.bak"%string =
      Some (File (list_byte_of_string "x = 1; // one"%string)) /\
    files (main (fun a => a) demo_backup_of demo_decode demo_encode
                demo_argv demo_fs) "main.rs"%string =
      Some (File (demo_encode new_s)).
Proof.
  destruct (driver_success (fun a => a) demo_backup_of demo_decode
              demo_encode demo_argv demo_fs "main.rs.bak"%string
              (list_byte_of_string "x = 1; // one"%string) (chars "x = 1; // one"%string))
    as (new_s & A & _ & B & C & D & _).
  - simpl; lia.
  - reflexivity.
  - reflexivity.
  - discriminate.
  - vm_compute. discriminate.
  - vm_compute. reflexivity.
  - exists new_s. repeat split; assumption.
Defined.

Lemma original_replaced_only_after_backup_witness :
  files (main (fun a => a) demo_backup_of demo_decode demo_encode
              demo_argv demo_fs) "main.rs"%string = demo_fs "main.rs"%string \/
  (ended (main (fun a => a) demo_backup_of demo_decode demo_encode
               demo_argv demo_fs) = Exit 0 /\
   exists b bytes,
     demo_backup_of "main.rs"%string = Some b /\
     demo_fs "main.rs"%string = Some (File bytes) /\
     files (main (fun a => a) demo_backup_of demo_decode demo_encode
                 demo_argv demo_fs) b = Some (File bytes)).
Proof.
  apply (original_replaced_only_after_backup
           (fun a => a) demo_backup_of demo_decode demo_encode
           demo_argv demo_fs).
  vm_compute. discriminate.
Defined.

Lemma driver_touches_two_paths_only_witness :
  files (main (fun a => a) demo_backup_of demo_decode demo_encode
              demo_argv demo_fs) "lib.rs"%string = demo_fs "lib.rs"%string.
Proof.
  apply (driver_touches_two_paths_only
           (fun a => a) demo_backup_of demo_decode demo_encode
           demo_argv demo_fs "lib.rs"%string).
  - discriminate.
  - vm_compute. discriminate.
Defined.


Lemma second_run_overwrites_backup_witness :
  let fs' := files (main (fun a => a) demo_backup_of demo_decode demo_encode
                         demo_argv demo_fs) in
  let cleaned := demo_encode (chars "x = 1;" ++ [ch_nl]) in
  ended (main (fun a => a) demo_backup_of demo_decode demo_encode
              demo_argv fs') = Exit 0 /\
  files (main (fun a => a) demo_backup_of demo_decode demo_encode
              demo_argv fs') "main.rs"%string = Some (File cleaned) /\
  files (main (fun a => a) demo_backup_of demo_decode demo_encode
              demo_argv fs') "main.rs.bak"%string = Some (File cleaned).
Proof.
  cbv zeta.
  apply (second_run_overwrites_backup
           (fun a => a) demo_backup_of demo_decode demo_encode
           demo_argv demo_fs "main.rs.bak"%string
           (list_byte_of_string "x = 1; // one"%string) (chars "x = 1; // one"%string)
           (chars "x = 1;" ++ [ch_nl])).
  - simpl; lia.
  - reflexivity.
  - reflexivity.
  - discriminate.
  - vm_compute. discriminate.
  - vm_compute. reflexivity.
  - vm_compute. reflexivity.
  - vm_compute. reflexivity.
Defined.

(** ** The transformation on whole texts *)

(** The written text has no line comment left: scanning it never enters
    the line-comment state. *)
Theorem written_text_has_no_line_comment (s : str) :
  exists out, strip_comments s = Some out /\ never_line_comment out.
Proof.
  exists (post_pass (scan_from normal s)).
  split; [apply strip_comments_total|].
  apply never_line_comment_iff.
  rewrite comment_free_post_pass.
  apply (scan_from_leaves_no_comment s normal).
Qed.

Lemma scan_plain_prefix (code : str) :
  forall x, plain_code code = true ->
            scan_from normal (code ++ x) = code ++ scan_from normal x.
Proof.
  unfold plain_code.
  induction code as [|c code IH]; intros x H; [reflexivity|].
  cbn [forallb] in H. apply andb_true_iff in H as [Hc H].
  repeat (apply andb_true_iff in Hc; destruct Hc as [Hc ?]).
  repeat match goal with
         | A : negb _ = true |- _ => apply negb_true_iff in A
         end.
  cbn [app]. unfold_scan. specialize (IH x H).
  destruct (code ++ x) as [|d r'] eqn:E.
  - rewrite scan_from_nil in IH. rewrite <- IH. reflexivity.
  - use_tests. cbn [andb]. rewrite IH. reflexivity.
Qed.

Lemma scan_comment_body (body : str) :
  ~ In ch_nl body ->
  (forall rest, scan_from line_comment (body ++ ch_nl :: rest) =
                ch_nl :: scan_from normal rest) /\
  scan_from line_comment body = [].
Proof.
  induction body as [|c body IH]; intros H.
  - split; [intros rest; cbn [app]; unfold_scan; eval_tests; reflexivity
           | reflexivity].
  - assert (Hc : N.eqb c ch_nl = false)
      by (apply N.eqb_neq; intros ->; apply H; left; reflexivity).
    destruct IH as [IH1 IH2]; [intros F; apply H; right; exact F|].
    split; [intros rest|]; cbn [app]; unfold_scan; rewrite Hc; auto.
Qed.

Lemma post_pass_first_line (a y : str) :
  no_break a = true ->
  post_pass (a ++ ch_nl :: y) =
  rstrip a ++ ch_nl :: match y with [] => [] | _ :: _ => post_pass y end.
Proof.
  intros Ha. unfold post_pass. rewrite (splitlines_line a y Ha).
  cbn [map]. destruct y as [|c y'].
  - cbn [splitlines map join_nl]. reflexivity.
  - destruct (splitlines (c :: y')) as [|ln lns] eqn:E.
    + apply splitlines_nil_inv in E. discriminate.
    + cbn [map]. change (join_nl (rstrip a :: rstrip ln :: map rstrip lns))
        with (rstrip a ++ ch_nl :: join_nl (rstrip ln :: map rstrip lns)).
      rewrite <- app_assoc. reflexivity.
Qed.

Lemma splitlines_single (ln : str) :
  ln <> [] -> no_break ln = true -> splitlines ln = [ln].
Proof.
  unfold no_break. induction ln as [|c r IH]; intros Hne H; [contradiction|].
  cbn [forallb] in H. apply andb_true_iff in H as [Hc H].
  apply negb_true_iff in Hc. rewrite splitlines_cons, Hc.
  destruct r as [|d r']; [reflexivity|].
  rewrite IH by (auto; discriminate). reflexivity.
Qed.

(** A first line of plain code followed by a line comment is written as
    the code without its trailing whitespace; the lines behind it are
    written as the transformation writes them on their own.  When the
    comment runs to the end of the input, the newline is added. *)
Theorem plain_line_with_comment (code comment rest : str) :
  plain_code code = true ->
  ~ In ch_nl comment ->
  (exists scanned out,
     scan_pass rest = Some scanned /\
     strip_comments rest = Some out /\
     strip_comments
       (code ++ ch_slash :: ch_slash :: comment ++ ch_nl :: rest) =
     Some (rstrip code ++ ch_nl ::
           match scanned with [] => [] | _ :: _ => out end)) /\
  strip_comments (code ++ ch_slash :: ch_slash :: comment) =
    Some (rstrip code ++ [ch_nl]).
Proof.
  intros Hcode Hcom.
  destruct (scan_comment_body comment Hcom) as [Hbody Hend].
  assert (Hnb : no_break code = true).
  { unfold plain_code, no_break in *. rewrite forallb_forall in *.
    intros c Hc. specialize (Hcode c Hc).
    apply andb_true_iff in Hcode. tauto. }
  split.
  - exists (scan_from normal rest), (post_pass (scan_from normal rest)).
    split; [apply scan_pass_total|].
    split; [apply strip_comments_total|].
    rewrite strip_comments_total, (scan_plain_prefix code _ Hcode).
    f_equal. unfold_scan. eval_tests. cbv beta match.
    rewrite Hbody. apply (post_pass_first_line code _ Hnb).
  - rewrite strip_comments_total, (scan_plain_prefix code _ Hcode).
    f_equal. unfold_scan. eval_tests. cbv beta match. rewrite Hend.
    rewrite app_nil_r. unfold post_pass.
    destruct code as [|c code'] eqn:Ec; [reflexivity|].
    rewrite splitlines_single by (auto; discriminate). reflexivity.
Qed.

Lemma plain_line_with_comment_witness :
  strip_comments (chars "let x = 5;  " ++ ch_slash :: ch_slash ::
                  chars " set x") =
  Some (rstrip (chars "let x = 5;  ") ++ [ch_nl]).
Proof.
  apply (proj2 (plain_line_with_comment
                  (chars "let x = 5;  ") (chars " set x") []
                  eq_refl
                  ltac:(vm_compute; intuition discriminate))).
Defined.

(** ** The scan pass against the lexical structure of the text *)

Lemma split_at_newline (r : str) :
  (exists body rest, r = body ++ ch_nl :: rest /\ ~ In ch_nl body) \/
  ~ In ch_nl r.
Proof.
  induction r as [|c r IH].
  - right. intros [].
  - destruct (N.eqb_spec c ch_nl) as [-> | Hc].
    + left. exists [], r. split; [reflexivity | intros []].
    + destruct IH as [(body & rest & -> & Hb) | Hr].
      * left. exists (c :: body), rest. split; [reflexivity|].
        intros [E | F]; [apply Hc; exact E | exact (Hb F)].
      * right. intros [E | F]; [apply Hc; exact E | exact (Hr F)].
Qed.

Lemma split_at_closer (r : str) :
  (exists body rest,
     r = body ++ ch_star :: ch_slash :: rest /\ block_body body = true) \/
  block_body r = true.
Proof.
  induction r as [|c r IH].
  - right. reflexivity.
  - destruct (N.eqb c ch_star &&
              match r with d :: _ => N.eqb d ch_slash | [] => false end)
      eqn:E.
    + left. apply andb_true_iff in E as [Hc Hd].
      destruct r as [|d r']; [discriminate|].
      apply N.eqb_eq in Hc, Hd. subst. exists [], r'. split; reflexivity.
    + destruct IH as [(body & rest & -> & Hb) | Hr].
      * left. exists (c :: body), rest. split; [reflexivity|].
        cbn [block_body]. rewrite Hb, andb_true_r.
        destruct body as [|d body']; cbn [app] in E.
        -- replace (N.eqb ch_star ch_slash) with false in E by reflexivity.
           rewrite andb_false_r in *. reflexivity.
        -- rewrite E. reflexivity.
      * right. cbn [block_body]. rewrite E, Hr. reflexivity.
Qed.

Lemma split_at_quote (q : char) (r : str) :
  (exists body rest,
     r = body ++ q :: rest /\ literal_body q body = true) \/
  no_closing q r = true.
Proof.
  induction r as [r IH] using (induction_ltof1 _ (@length char)).
  unfold ltof in IH. destruct r as [|c r]; [right; reflexivity|].
  cbn [no_closing]. destruct (N.eqb c ch_backslash) eqn:Hb.
  - destruct r as [|d r']; [right; reflexivity|].
    destruct (IH r') as [(body & rest & -> & Hl) | Hn]; [simpl; lia | | ].
    + left. exists (c :: d :: body), rest. split; [reflexivity|].
      cbn [literal_body]. rewrite Hb. exact Hl.
    + right. exact Hn.
  - destruct (N.eqb_spec c q) as [-> | Hq].
    + left. exists [], r. split; reflexivity.
    + apply N.eqb_neq in Hq.
      destruct (IH r) as [(body & rest & -> & Hl) | Hn]; [simpl; lia | | ].
      * left. exists (c :: body), rest. split; [reflexivity|].
        cbn [literal_body]. rewrite Hb, Hq, Hl. reflexivity.
      * right. rewrite Hn. reflexivity.
Qed.

(** Every text has the lexical structure. *)
Lemma without_line_comments_exists (s : str) :
  exists out, without_line_comments s out.
Proof.
  induction s as [s IH] using (induction_ltof1 _ (@length char)).
  unfold ltof in IH. destruct s as [|c r]; [exists []; constructor|].
  destruct (code_char c r) eqn:Hcode.
  - destruct (IH r) as (out & Hout); [simpl; lia|].
    exists (c :: out). apply wlc_code; assumption.
  - unfold code_char in Hcode.
    destruct (N.eqb_spec c ch_dquote) as [-> | Hd].
    { destruct (split_at_quote ch_dquote r)
        as [(body & rest & -> & Hl) | Hn].
      - destruct (IH rest) as (out & Hout);
          [simpl; rewrite length_app; simpl; lia|].
        eexists. apply wlc_literal; eauto.
      - eexists. apply wlc_literal_unclosed; eauto. }
    destruct (N.eqb_spec c ch_squote) as [-> | Hs].
    { destruct (split_at_quote ch_squote r)
        as [(body & rest & -> & Hl) | Hn].
      - destruct (IH rest) as (out & Hout);
          [simpl; rewrite length_app; simpl; lia|].
        eexists. apply wlc_literal; eauto.
      - eexists. apply wlc_literal_unclosed; eauto. }
    cbn [negb andb] in Hcode. apply negb_false_iff in Hcode.
    apply andb_true_iff in Hcode as [Hc Hnext].
    apply N.eqb_eq in Hc. subst c.
    destruct r as [|d r']; [discriminate|].
    apply orb_true_iff in Hnext as [Hd' | Hd']; apply N.eqb_eq in Hd'; subst d.
    + destruct (split_at_newline r') as [(body & rest & -> & Hb) | Hn].
      * destruct (IH rest) as (out & Hout);
          [simpl; rewrite length_app; simpl; lia|].
        eexists. apply wlc_line_comment; eauto.
      * eexists. apply wlc_line_comment_at_end; eauto.
    + destruct (split_at_closer r') as [(body & rest & -> & Hb) | Hn].
      * destruct (IH rest) as (out & Hout);
          [simpl; rewrite !length_app; simpl; lia|].
        eexists. apply wlc_block_comment; eauto.
      * eexists. apply wlc_block_comment_unclosed; eauto.
Qed.

Lemma scan_code_char (c : char) (rest : str) :
  code_char c rest = true ->
  scan_from normal (c :: rest) = c :: scan_from normal rest.
Proof.
  unfold code_char. intros H.
  apply andb_true_iff in H as [H Hn]. apply andb_true_iff in H as [Hd Hs].
  apply negb_true_iff in Hd, Hs, Hn.
  unfold_scan. destruct rest as [|d r']; [reflexivity|].
  rewrite Hd, Hs.
  destruct (N.eqb c ch_slash); cbn [andb] in *;
    [apply orb_false_iff in Hn as [-> ->] | ]; reflexivity.
Qed.

(** The scanner computes what the lexical structure prescribes. *)
Lemma without_line_comments_scan (s out : str) :
  without_line_comments s out -> scan_from normal s = out.
Proof.
  induction 1 as [ | body rest out Hb _ IH | body Hb
                   | body rest out Hb _ IH | u Hu
                   | q body rest out Hq Hb _ IH | q u Hq Hu
                   | c rest out Hc _ IH ].
  - reflexivity.
  - unfold_scan. eval_tests. cbv beta match.
    rewrite (proj1 (scan_comment_body body Hb)), IH. reflexivity.
  - unfold_scan. eval_tests. cbv beta match.
    apply (proj2 (scan_comment_body body Hb)).
  - destruct (scan_keeps_literals_and_blocks body rest) as (_ & _ & Hk).
    rewrite (Hk Hb), IH. reflexivity.
  - unfold_scan. eval_tests. cbv beta match.
    rewrite (scan_unclosed_block u Hu). reflexivity.
  - destruct (scan_keeps_literals_and_blocks body rest) as (Hs & Hch & _).
    destruct Hq as [-> | ->]; [rewrite (Hs Hb) | rewrite (Hch Hb)];
      rewrite IH; reflexivity.
  - destruct Hq as [-> | ->]; unfold_scan; eval_tests; cbn [andb];
      (destruct u as [|d u']; [reflexivity|]); cbv beta match.
    + rewrite (scan_unclosed_literal (d :: u') string_lit ch_dquote); auto.
    + rewrite (scan_unclosed_literal (d :: u') char_lit ch_squote); auto.
  - rewrite (scan_code_char c rest Hc), IH. reflexivity.
Qed.

(** C8: the scan pass returns a selection of the input's characters, in
    their order and each at most once (a mask over the positions of the
    input).  The positions left out are those consumed while a line
    comment is being opened or skipped, and each of them is one of two
    slashes or comes after them with no newline in between.  And the
    result is the input with exactly its line comments deleted: it is
    the one text that the lexical structure of the input (line comments,
    block comments, literals and other characters, read from the start)
    leaves when every line comment, with its two slashes, is removed and
    everything else is copied. *)
Theorem scan_deletes_only_comment_runs (s : str) :
  exists mask,
    length mask = length s /\
    scan_pass s = Some (select mask s) /\
    (forall j, j < length s ->
               (nth j mask true = false <-> in_line_comment s j)) /\
    (forall j, j < length s -> nth j mask true = false ->
               in_slash_run s j) /\
    without_line_comments s (select mask s) /\
    (forall out, without_line_comments s out -> out = select mask s).
Proof.
  destruct (scan_pass_selection s) as (mask & Hlen & Hsel & Hiff & Hrun).
  assert (E : scan_from normal s = select mask s).
  { rewrite scan_pass_total in Hsel. inversion Hsel. reflexivity. }
  exists mask.
  split; [exact Hlen|]. split; [exact Hsel|].
  split; [exact Hiff|]. split; [exact Hrun|]. split.
  - destruct (without_line_comments_exists s) as (out & Hout).
    rewrite <- E, (without_line_comments_scan s out Hout). exact Hout.
  - intros out Hout. rewrite <- E.
    symmetry. apply without_line_comments_scan. exact Hout.
Qed.
